(** * A shallow embedding of the Merkle tree engine of [merkle/merkle.go]

    The Go package keeps an ordered list of leaves and a tree of hashes
    rebuilt on every [AddLeaf]; [GenerateProof] re-derives the levels to
    collect sibling hashes and [VerifyProof] folds a proof back to a root.

    Modelling conventions.
    - A Go [[]byte] is a value that is either [nil] or a sequence of bytes
      ([ByteSlice]).  Slices are modelled by their contents: the model has
      no backing arrays, hence it assumes that the slices returned by the
      hash function and passed in by the caller do not overlap in memory
      and that the caller leaves a slice alone once it has passed it in.
    - The hash function is a pure function of the bytes it is given.
    - A Go [int] index is an integer in [Z]; the only arithmetic done on it
      ([%2], [/2], [^1]) cannot overflow.  [len] is a natural number.
    - A method with receiver [t *DefaultMerkleTree] is a state transformer
      over the record; a run-time panic and the exhaustion of the loop
      bound of the model are outcomes of their own. *)

From Stdlib Require Import List ZArith Zquot Lia Bool PeanoNat.
From Stdlib Require Import Strings.Byte.
From Stdlib Require String Ascii DecimalString.
Import String.StringSyntax.
Delimit Scope string_scope with string.
Import ListNotations.

Set Implicit Arguments.

(** ** Go values *)

Module Go.

(** [[]byte]: [None] is the nil slice. *)
Definition ByteSlice : Type := option (list byte).

Definition bytes_of (s : ByteSlice) : list byte :=
  match s with
  | None => []
  | Some l => l
  end.

(** [append(s, elems...)]: appending nothing gives [s] back (a nil slice
    stays nil); otherwise the result is a non-nil slice. *)
Definition append (s elems : ByteSlice) : ByteSlice :=
  match bytes_of elems with
  | [] => s
  | _ :: _ => Some (bytes_of s ++ bytes_of elems)
  end.

Fixpoint bytes_eqb (a b : list byte) : bool :=
  match a, b with
  | [], [] => true
  | x :: a', y :: b' => Byte.eqb x y && bytes_eqb a' b'
  | _, _ => false
  end.

(** [string(a) == string(b)]: the conversion forgets nil-ness. *)
Definition string_eqb (a b : ByteSlice) : bool :=
  bytes_eqb (bytes_of a) (bytes_of b).

(** The value of type [error]: nil or [errors.New(msg)]. *)
Definition error : Type := option String.string.

(** What a call does: it returns, it panics, or the model's loop bound
    was too small. *)
Inductive Outcome (A : Type) : Type :=
| Done (a : A)
| Panic (msg : String.string)
| OutOfFuel.

Arguments Panic {A} msg.
Arguments OutOfFuel {A}.

Definition obind {A B : Type} (o : Outcome A) (k : A -> Outcome B) : Outcome B :=
  match o with
  | Done a => k a
  | Panic msg => Panic msg
  | OutOfFuel => OutOfFuel
  end.

(** [s[i]] for an [int] index: out of range panics. *)
Definition index_at {A : Type} (s : list A) (i : Z) : Outcome A :=
  if ((i <? 0) || (Z.of_nat (length s) <=? i))%Z
  then Panic "index out of range"%string
  else match nth_error s (Z.to_nat i) with
       | Some a => Done a
       | None => Panic "index out of range"%string
       end.

End Go.

Import Go.

Declare Scope outcome_scope.
Delimit Scope outcome_scope with outcome.
Notation "x <- c ;; k" := (obind c (fun x => k))
  (at level 61, c at next level, right associativity) : outcome_scope.

(** ** The data model of the package *)

Definition HashFn : Type := ByteSlice -> ByteSlice.

(** [type MerkleNode struct { Left, Right *MerkleNode; Hash []byte }].
    A nil child is [None]; a node reached through two pointers appears as
    two equal values. *)
#[warnings="-register-all"] Inductive MerkleNode : Type :=
  mkNode { Left : option MerkleNode; Right : option MerkleNode; Hash : ByteSlice }.

Record DefaultMerkleTree : Type := mkTree {
  hashFn : HashFn;
  leaves : list ByteSlice;
  root : option MerkleNode
}.

(** Methods on [*DefaultMerkleTree]: state transformers with an outcome. *)
Definition M (A : Type) : Type := DefaultMerkleTree -> Outcome (A * DefaultMerkleTree).

Definition ret {A : Type} (a : A) : M A := fun t => Done (a, t).

Definition bind {A B : Type} (m : M A) (k : A -> M B) : M B :=
  fun t =>
    match m t with
    | Done (a, t') => k a t'
    | Panic msg => Panic msg
    | OutOfFuel => OutOfFuel
    end.

Definition get : M DefaultMerkleTree := fun t => Done (t, t).

Definition set_leaves (l : list ByteSlice) : M unit :=
  fun t => Done (tt, mkTree t.(hashFn) l t.(root)).

Definition set_root (r : option MerkleNode) : M unit :=
  fun t => Done (tt, mkTree t.(hashFn) t.(leaves) r).

Definition lift {A : Type} (o : Outcome A) : M A :=
  fun t =>
    match o with
    | Done a => Done (a, t)
    | Panic msg => Panic msg
    | OutOfFuel => OutOfFuel
    end.

Declare Scope method_scope.
Delimit Scope method_scope with method.
Notation "x <- c ;; k" := (bind c (fun x => k))
  (at level 61, c at next level, right associativity) : method_scope.
Notation "c ;;; k" := (bind c (fun _ => k))
  (at level 61, right associativity) : method_scope.

(** ** The package's functions *)

Definition NewDefaultMerkleTree (hashFn : HashFn) : DefaultMerkleTree :=
  mkTree hashFn [] None.

(** [for _, data := range t.leaves { nodes = append(nodes, &MerkleNode{Hash: t.hashFn(data)}) }],
    the first loop of both [buildTree] and [GenerateProof]. *)
Fixpoint leafNodes (h : HashFn) (leaves : list ByteSlice) (nodes : list MerkleNode)
  : list MerkleNode :=
  match leaves with
  | [] => nodes
  | data :: rest => leafNodes h rest (nodes ++ [mkNode None None (h data)])
  end.

(** [if len(nodes)%2 != 0 { nodes = append(nodes, nodes[len(nodes)-1]) }] *)
Definition dupLast (nodes : list MerkleNode) : Outcome (list MerkleNode) :=
  if negb (length nodes mod 2 =? 0)
  then (last <- index_at nodes (Z.of_nat (length nodes) - 1);;
        Done (nodes ++ [last]))%outcome
  else Done nodes.

(** The inner loop of [buildTree]:
    [for i := 0; i < len(nodes); i += 2 { ... level = append(level, parent) }];
    [nodes[i+1]] panics when a single node is left over. *)
Fixpoint combinePairs (h : HashFn) (nodes level : list MerkleNode)
  : Outcome (list MerkleNode) :=
  match nodes with
  | [] => Done level
  | [_] => Panic "index out of range"%string
  | l :: r :: rest =>
      let combined := append l.(Hash) r.(Hash) in
      let parentHash := h combined in
      let parent := mkNode (Some l) (Some r) parentHash in
      combinePairs h rest (level ++ [parent])
  end.

(** The outer loop of [buildTree]: [for len(nodes) > 1 { ... nodes = level }]. *)
Fixpoint buildLoop (fuel : nat) (h : HashFn) (nodes : list MerkleNode)
  : Outcome (list MerkleNode) :=
  if length nodes <=? 1 then Done nodes
  else match fuel with
       | O => OutOfFuel
       | S fuel' =>
           (nodes1 <- dupLast nodes;;
            level <- combinePairs h nodes1 [];;
            buildLoop fuel' h level)%outcome
       end.

(** [func (t *DefaultMerkleTree) buildTree()].  The outer loop runs at most
    once per node of the first level, which bounds it. *)
Definition buildTree : M unit :=
  (t <- get;;
   let nodes := leafNodes t.(hashFn) t.(leaves) [] in
   if length nodes =? 0 then set_root None
   else
     nodes' <- lift (buildLoop (length nodes) t.(hashFn) nodes);;
     r <- lift (index_at nodes' 0);;
     set_root (Some r))%method.

(** [func (t *DefaultMerkleTree) AddLeaf(data []byte) error] *)
Definition AddLeaf (data : ByteSlice) : M error :=
  (t <- get;;
   set_leaves (t.(leaves) ++ [data]);;;
   buildTree;;;
   ret None)%method.

(** [func (t *DefaultMerkleTree) Root() []byte] *)
Definition Root : M ByteSlice :=
  (t <- get;;
   match t.(root) with
   | None => ret None
   | Some r => ret r.(Hash)
   end)%method.

(** The inner loop of [GenerateProof]; the parents carry a hash only. *)
Fixpoint hashPairs (h : HashFn) (level nextLevel : list MerkleNode)
  : Outcome (list MerkleNode) :=
  match level with
  | [] => Done nextLevel
  | [_] => Panic "index out of range"%string
  | l :: r :: rest =>
      let combined := append l.(Hash) r.(Hash) in
      let parent := mkNode None None (h combined) in
      hashPairs h rest (nextLevel ++ [parent])
  end.

(** The outer loop of [GenerateProof]: [for numLeaves > 1 { ... }]. *)
Fixpoint proofLoop (fuel : nat) (h : HashFn) (numLeaves : nat)
    (level : list MerkleNode) (index : Z) (proof : list ByteSlice)
  : Outcome (list ByteSlice) :=
  if numLeaves <=? 1 then Done proof
  else match fuel with
       | O => OutOfFuel
       | S fuel' =>
           (level1 <- dupLast level;;
            let siblingIndex := Z.lxor index 1 in
            sibling <- index_at level1 siblingIndex;;
            let proof1 := proof ++ [sibling.(Hash)] in
            nextLevel <- hashPairs h level1 [];;
            proofLoop fuel' h (length nextLevel) nextLevel (Z.quot index 2) proof1)%outcome
       end.

(** [func (t *DefaultMerkleTree) GenerateProof(index int) ([][]byte, error)] *)
Definition GenerateProof (index : Z) : M (list ByteSlice * error) :=
  (t <- get;;
   if ((index <? 0) || (Z.of_nat (length t.(leaves)) <=? index))%Z
   then ret ([], Some "index out of bounds"%string)
   else
     let numLeaves := length t.(leaves) in
     let level := leafNodes t.(hashFn) t.(leaves) [] in
     proof <- lift (proofLoop numLeaves t.(hashFn) numLeaves level index []);;
     ret (proof, None))%method.

(** The loop of [VerifyProof]: [for _, sibling := range proof { ... }].
    Go's [%] and [/] truncate toward zero ([Z.rem], [Z.quot]). *)
Fixpoint verifyLoop (h : HashFn) (hash : ByteSlice) (index : Z) (proof : list ByteSlice)
  : ByteSlice :=
  match proof with
  | [] => hash
  | sibling :: rest =>
      let combined :=
        if (Z.rem index 2 =? 0)%Z then append hash sibling else append sibling hash in
      verifyLoop h (h combined) (Z.quot index 2) rest
  end.

(** [func (t *DefaultMerkleTree) VerifyProof(leaf []byte, index int, proof [][]byte, root []byte) bool] *)
Definition VerifyProof (leaf : ByteSlice) (index : Z) (proof : list ByteSlice)
    (root : ByteSlice) : M bool :=
  (t <- get;;
   let hash := t.(hashFn) leaf in
   ret (string_eqb (verifyLoop t.(hashFn) hash index proof) root))%method.

(** ** Sequences of calls on one engine *)

Inductive Call : Type :=
| CallAddLeaf (data : ByteSlice)
| CallRoot
| CallGenerateProof (index : Z)
| CallVerifyProof (leaf : ByteSlice) (index : Z) (proof : list ByteSlice) (root : ByteSlice).

Definition call (c : Call) : M unit :=
  match c with
  | CallAddLeaf data => (AddLeaf data;;; ret tt)%method
  | CallRoot => (Root;;; ret tt)%method
  | CallGenerateProof index => (GenerateProof index;;; ret tt)%method
  | CallVerifyProof leaf index proof root => (VerifyProof leaf index proof root;;; ret tt)%method
  end.

(** The states an engine can be in: created by [NewDefaultMerkleTree] and
    then driven through its four methods. *)
Inductive reachable : DefaultMerkleTree -> Prop :=
| reachable_new (h : HashFn) : reachable (NewDefaultMerkleTree h)
| reachable_call (t t' : DefaultMerkleTree) (c : Call) :
    reachable t -> call c t = Done (tt, t') -> reachable t'.

(** [for _, d := range data { tree.AddLeaf(d) }], as the driver does. *)
Fixpoint addLeaves (data : list ByteSlice) : M unit :=
  match data with
  | [] => ret tt
  | d :: rest => (AddLeaf d;;; addLeaves rest)%method
  end.

(** ** The verification algorithm in the words of the specification

    [currentHash = H(leaf)]; for each sibling, combine on the right when the
    index is even and on the left when it is odd, then halve the index.
    The halving is a parameter: the specification says floor ([Z.div]),
    Go's [/] truncates ([Z.quot]). *)
Definition verifyStep (halve : Z -> Z) (H : HashFn) (st : ByteSlice * Z) (sibling : ByteSlice)
  : ByteSlice * Z :=
  let (currentHash, index) := st in
  (if Z.even index then H (append currentHash sibling) else H (append sibling currentHash),
   halve index).

Definition verifyHash (halve : Z -> Z) (H : HashFn) (leaf : ByteSlice) (index : Z)
    (proof : list ByteSlice) : ByteSlice :=
  fst (fold_left (verifyStep halve H) proof (H leaf, index)).

Definition floorHalf (index : Z) : Z := (index / 2)%Z.
Definition truncHalf (index : Z) : Z := (index ÷ 2)%Z.

(** ** Hash-level view of one level of the tree, used to relate the loops *)

(** The position paired with position [i]: [i ^ 1]. *)
Definition siblingOf (i : nat) : nat := if Nat.even i then S i else pred i.

Definition padHashes (hs : list ByteSlice) : list ByteSlice :=
  if Nat.even (length hs) then hs else hs ++ [last hs None].

Fixpoint pairHashes (h : HashFn) (hs : list ByteSlice) : list ByteSlice :=
  match hs with
  | l :: r :: rest => h (append l r) :: pairHashes h rest
  | _ => []
  end.

Definition nextHashes (h : HashFn) (hs : list ByteSlice) : list ByteSlice :=
  pairHashes h (padHashes hs).

(** The root hash as a function of the hash function and the leaves alone. *)
Fixpoint rootHashes (fuel : nat) (h : HashFn) (hs : list ByteSlice) : list ByteSlice :=
  match fuel with
  | O => hs
  | S fuel' => if length hs <=? 1 then hs else rootHashes fuel' h (nextHashes h hs)
  end.

Definition rootOf (h : HashFn) (leaves : list ByteSlice) : ByteSlice :=
  match rootHashes (length leaves) h (map h leaves) with
  | r :: _ => r
  | [] => None
  end.

(** ** A concrete hash function for the examples

    It prefixes its input with a zero byte: injective, and never nil. *)
Definition tagHash : HashFn := fun data => Some (x00 :: bytes_of data).

Definition leaf_a : ByteSlice := Some [x61].
Definition leaf_b : ByteSlice := Some [x62].
Definition leaf_c : ByteSlice := Some [x63].

(** The engine of the examples: leaves a, b, c; and the one with leaf a only. *)
Definition tree_of (h : HashFn) (data : list ByteSlice) : DefaultMerkleTree :=
  match addLeaves data (NewDefaultMerkleTree h) with
  | Done (_, t) => t
  | _ => NewDefaultMerkleTree h
  end.

Definition abc_tree : DefaultMerkleTree := tree_of tagHash [leaf_a; leaf_b; leaf_c].
Definition a_tree : DefaultMerkleTree := tree_of tagHash [leaf_a].

(** A function of type [HashFn] may return nil: [func(data []byte) []byte { return nil }]. *)
Definition nilHash : HashFn := fun _ => None.
Definition nil_tree : DefaultMerkleTree := tree_of nilHash [leaf_a].

(** A value is a digest when the hash function returned it. *)
Definition hashed (h : HashFn) (x : ByteSlice) : Prop := exists data, x = h data.

(** Unfolds a method call down to the loops. *)
Ltac run_method :=
  cbv beta iota zeta delta
    [AddLeaf Root GenerateProof VerifyProof buildTree call
     bind get ret lift set_root set_leaves hashFn leaves root].

(** ** Further notions: call sequences, the shape of the stored tree *)

(** A sequence of method calls on one engine. *)
Fixpoint calls (cs : list Call) : M unit :=
  match cs with
  | [] => ret tt
  | c :: rest => (call c;;; calls rest)%method
  end.

(** The leaves a sequence of calls passes to [AddLeaf], in call order. *)
Fixpoint addedLeaves (cs : list Call) : list ByteSlice :=
  match cs with
  | [] => []
  | CallAddLeaf data :: rest => data :: addedLeaves rest
  | _ :: rest => addedLeaves rest
  end.

(** The node [&MerkleNode{Hash: h(data)}] of a leaf, and the parent
    [&MerkleNode{Left: l, Right: r, Hash: h(append(l.Hash, r.Hash...))}]. *)
Definition leafNode (h : HashFn) (data : ByteSlice) : MerkleNode :=
  mkNode None None (h data).

Definition parentNode (h : HashFn) (l r : MerkleNode) : MerkleNode :=
  mkNode (Some l) (Some r) (h (append l.(Hash) r.(Hash))).

(** A level of [buildTree] after the duplication of its last node, and the
    parents of an even level. *)
Definition padNodes (nodes : list MerkleNode) : list MerkleNode :=
  if Nat.even (length nodes) then nodes
  else nodes ++ [last nodes (mkNode None None None)].

Fixpoint pairNodes (h : HashFn) (nodes : list MerkleNode) : list MerkleNode :=
  match nodes with
  | l :: r :: rest => parentNode h l r :: pairNodes h rest
  | _ => []
  end.

(** A perfect tree of the given depth whose inner nodes carry the hash of
    their children's hashes and whose leaves have no children. *)
Inductive perfect (h : HashFn) : nat -> MerkleNode -> Prop :=
| perfect_leaf (x : ByteSlice) : perfect h 0 (mkNode None None x)
| perfect_node (d : nat) (l r : MerkleNode) :
    perfect h d l -> perfect h d r -> perfect h (S d) (parentNode h l r).

(** Going down [d] levels from a node, to the right where the bit of [i]
    is set: the node reached, and the hashes of the nodes left aside, the
    lowest first. *)
Fixpoint nodeAt (d : nat) (n : MerkleNode) (i : nat) : option MerkleNode :=
  match d with
  | O => Some n
  | S d' =>
      match (if Nat.testbit i d' then n.(Right) else n.(Left)) with
      | Some child => nodeAt d' child i
      | None => None
      end
  end.

Fixpoint pathSiblings (d : nat) (n : MerkleNode) (i : nat) : list ByteSlice :=
  match d with
  | O => []
  | S d' =>
      match n.(Left), n.(Right) with
      | Some l, Some r =>
          if Nat.testbit i d' then pathSiblings d' r i ++ [l.(Hash)]
          else pathSiblings d' l i ++ [r.(Hash)]
      | _, _ => []
      end
  end.

(** A hash function without collisions, as far as the bytes go. *)
Definition collision_free (h : HashFn) : Prop :=
  forall x y, bytes_of (h x) = bytes_of (h y) -> bytes_of x = bytes_of y.

(** A hash function whose output length depends on the input length only
    (a fixed output length is the usual case). *)
Definition length_regular (h : HashFn) : Prop :=
  forall x y,
    length (bytes_of x) = length (bytes_of y) ->
    length (bytes_of (h x)) = length (bytes_of (h y)).

Definition same_length (a b : ByteSlice) : Prop :=
  length (bytes_of a) = length (bytes_of b).

Definition same_bytes (a b : ByteSlice) : Prop := bytes_of a = bytes_of b.

(** ** The driver, [main.go] *)

(** [hex.EncodeToString]: two lower-case hexadecimal digits per byte. *)
Definition hextable : list Ascii.ascii :=
  String.list_ascii_of_string "0123456789abcdef"%string.

Definition hexDigit (v : N) : Ascii.ascii :=
  nth (N.to_nat v) hextable Ascii.zero.

Fixpoint hexBytes (src : list byte) : String.string :=
  match src with
  | [] => String.EmptyString
  | v :: rest =>
      String.String (hexDigit (N.shiftr (Byte.to_N v) 4))
        (String.String (hexDigit (N.land (Byte.to_N v) 15)) (hexBytes rest))
  end.

Definition EncodeToString (src : ByteSlice) : String.string := hexBytes (bytes_of src).

(** The verbs of [fmt.Printf] that the driver uses: [%d] and [%v] on a bool. *)
Definition formatInt (z : Z) : String.string :=
  DecimalString.NilZero.string_of_int (Z.to_int z).

Definition formatBool (b : bool) : String.string :=
  if b then "true"%string else "false"%string.

Definition newline : String.string :=
  String.String (Ascii.ascii_of_nat 10) String.EmptyString.

Definition Printf (parts : list String.string) : String.string :=
  String.concat String.EmptyString parts.

(** [func sha256Hash(data []byte) []byte]: [hash[:]] is a non-nil slice of
    the array that [sha256.Sum256] returns; that function, of the Go
    library, is a parameter. *)
Definition sha256Hash (Sum256 : list byte -> list byte) : HashFn :=
  fun data => let hash := Sum256 (bytes_of data) in Some hash.

Definition main_data : list ByteSlice :=
  [ Some (String.list_byte_of_string "tx1: Alice pays Bob 10 BTC"%string);
    Some (String.list_byte_of_string "tx2: Bob pays Charlie 5 BTC"%string);
    Some (String.list_byte_of_string "tx3: Charlie pays Dave 2 BTC"%string);
    Some (String.list_byte_of_string "tx4: Dave pays Eve 1 BTC"%string);
    Some (String.list_byte_of_string "tx5: sanskar pays vishu 1 BTC"%string) ].

(** [for i, p := range proof { fmt.Printf("  [%d] %s\n", i, hex.EncodeToString(p)) }] *)
Fixpoint printProof (i : nat) (proof : list ByteSlice) : list String.string :=
  match proof with
  | [] => []
  | p :: rest =>
      Printf ["  ["%string; formatInt (Z.of_nat i); "] "%string; EncodeToString p; newline]
      :: printProof (S i) rest
  end.

(** [func main()]: what it does to the engine and the lines it prints.
    The errors of [AddLeaf] and [GenerateProof] are dropped, as in the source. *)
Definition main_run : M (list String.string) :=
  (let data := main_data in
   addLeaves data;;;
   root <- Root;;
   let out1 := [Printf ["Merkle Root: "%string; EncodeToString root; newline]] in
   let index := 2%Z in
   res <- GenerateProof index;;
   let proof := fst res in
   let out2 := out1 ++ [Printf ["Proof for leaf "%string; formatInt index; ":"%string; newline]] in
   let out3 := out2 ++ printProof 0 proof in
   leaf <- lift (index_at data index);;
   valid <- VerifyProof leaf index proof root;;
   ret (out3 ++ [Printf ["Proof valid? "%string; formatBool valid; newline]]))%method.

Definition main (Sum256 : list byte -> list byte) : Outcome (list String.string) :=
  match main_run (NewDefaultMerkleTree (sha256Hash Sum256)) with
  | Done (out, _) => Done out
  | Panic msg => Panic msg
  | OutOfFuel => OutOfFuel
  end.

(** * Properties *)

(** ** Go values *)

Lemma bytes_eqb_eq (a b : list byte) : bytes_eqb a b = true <-> a = b.
Proof.
  revert b; induction a as [|x a IH]; intros [|y b]; simpl; split; intros E;
    try reflexivity; try discriminate.
  - apply andb_true_iff in E as [Exy Eab].
    apply byte_dec_bl in Exy. apply IH in Eab. congruence.
  - injection E as -> ->. apply andb_true_iff; split.
    + now apply byte_dec_lb.
    + now apply IH.
Qed.

Lemma string_eqb_eq (a b : ByteSlice) :
  string_eqb a b = true <-> bytes_of a = bytes_of b.
Proof. apply bytes_eqb_eq. Qed.

Lemma index_at_of_nat (A : Type) (s : list A) (i : nat) (a : A) :
  nth_error s i = Some a -> index_at s (Z.of_nat i) = Done a.
Proof.
  intros E. unfold index_at.
  assert (i < length s) by (apply nth_error_Some; congruence).
  destruct (Z.ltb_spec (Z.of_nat i) 0); [lia|].
  destruct (Z.leb_spec (Z.of_nat (length s)) (Z.of_nat i)); [lia|].
  simpl. now rewrite Nat2Z.id, E.
Qed.

(** ** Index arithmetic: Go's [^1], [%2] and [/2] on a valid index *)

Lemma lxor_1_double (z : Z) : (0 <= z)%Z -> Z.lxor (2 * z) 1 = (2 * z + 1)%Z.
Proof. destruct z; intros; try reflexivity; lia. Qed.

Lemma lxor_1_succ_double (z : Z) : (0 <= z)%Z -> Z.lxor (2 * z + 1) 1 = (2 * z)%Z.
Proof. destruct z; intros; try reflexivity; lia. Qed.

Lemma nat_parity_split (i : nat) :
  (Nat.even i = true /\ i = 2 * Nat.div2 i) \/
  (Nat.even i = false /\ i = S (2 * Nat.div2 i)).
Proof.
  pose proof (Nat.div2_odd i) as E. unfold Nat.odd in E.
  destruct (Nat.even i); simpl in E; [left | right]; split; auto; lia.
Qed.

Lemma lxor_1_of_nat (i : nat) : Z.lxor (Z.of_nat i) 1 = Z.of_nat (siblingOf i).
Proof.
  unfold siblingOf.
  destruct (nat_parity_split i) as [[Ev E] | [Ev E]]; rewrite Ev.
  - rewrite E at 1. rewrite Nat2Z.inj_mul. change (Z.of_nat 2) with 2%Z.
    rewrite lxor_1_double by lia. lia.
  - rewrite E at 1. rewrite Nat2Z.inj_succ, Nat2Z.inj_mul. change (Z.of_nat 2) with 2%Z.
    unfold Z.succ. rewrite lxor_1_succ_double by lia. lia.
Qed.

Lemma quot_2_of_nat (i : nat) : (Z.of_nat i ÷ 2)%Z = Z.of_nat (Nat.div2 i).
Proof.
  rewrite Z.quot_div_nonneg by lia.
  rewrite Nat.div2_div. now rewrite Nat2Z.inj_div.
Qed.

Lemma rem_2_of_nat (i : nat) : (Z.rem (Z.of_nat i) 2 =? 0)%Z = Nat.even i.
Proof.
  rewrite Z.rem_mod_nonneg by lia.
  destruct (nat_parity_split i) as [[Ev E] | [Ev E]]; rewrite Ev.
  - apply Z.eqb_eq. rewrite E, Nat2Z.inj_mul. change (Z.of_nat 2) with 2%Z.
    rewrite Z.mul_comm. apply Z.mod_mul. lia.
  - apply Z.eqb_neq. rewrite E, Nat2Z.inj_succ, Nat2Z.inj_mul.
    change (Z.of_nat 2) with 2%Z. unfold Z.succ.
    rewrite Z.add_comm, Z.mul_comm, Z.mod_add by lia. discriminate.
Qed.

(** ** One level of the tree *)

Lemma pair_ind (A : Type) (P : list A -> Prop) :
  P [] -> (forall x, P [x]) -> (forall x y l, P l -> P (x :: y :: l)) ->
  forall l, P l.
Proof.
  intros H0 H1 H2.
  assert (forall l, P l /\ forall x, P (x :: l)) as G.
  { induction l as [|y l [IH1 IH2]]; split; auto. }
  intros l. apply G.
Qed.

Lemma leafNodes_hashes (h : HashFn) (ls : list ByteSlice) (nodes : list MerkleNode) :
  map Hash (leafNodes h ls nodes) = map Hash nodes ++ map h ls.
Proof.
  revert nodes. induction ls as [|d ls IH]; intros nodes; simpl.
  - now rewrite app_nil_r.
  - rewrite IH, map_app. simpl. now rewrite <- app_assoc.
Qed.

Lemma leafNodes_length (h : HashFn) (ls : list ByteSlice) :
  length (leafNodes h ls []) = length ls.
Proof.
  rewrite <- (length_map Hash), leafNodes_hashes. simpl. apply length_map.
Qed.

Lemma even_mod2 (n : nat) : (n mod 2 =? 0) = Nat.even n.
Proof.
  destruct (Nat.even n) eqn:E.
  - apply Nat.eqb_eq. apply Nat.even_spec in E as [k ->].
    rewrite Nat.mul_comm. apply Nat.Div0.mod_mul.
  - apply Nat.eqb_neq. rewrite <- Nat.negb_odd in E. apply negb_false_iff in E.
    apply Nat.odd_spec in E as [k ->].
    rewrite Nat.add_comm, Nat.mul_comm, Nat.Div0.mod_add. discriminate.
Qed.

Lemma padHashes_even (hs : list ByteSlice) : Nat.even (length (padHashes hs)) = true.
Proof.
  unfold padHashes. destruct (Nat.even (length hs)) eqn:E; auto.
  rewrite length_app. simpl. rewrite Nat.add_1_r, Nat.even_succ.
  now rewrite <- Nat.negb_even, E.
Qed.

Lemma padHashes_length (hs : list ByteSlice) :
  length (padHashes hs) = 2 * Nat.div2 (S (length hs)).
Proof.
  unfold padHashes.
  pose proof (Nat.div2_odd (S (length hs))) as E. rewrite Nat.odd_succ in E.
  destruct (Nat.even (length hs)); simpl Nat.b2n in E.
  - lia.
  - rewrite length_app. simpl length. lia.
Qed.

Lemma dupLast_hashes (nodes : list MerkleNode) :
  exists nodes1, dupLast nodes = Done nodes1 /\
                 map Hash nodes1 = padHashes (map Hash nodes).
Proof.
  unfold dupLast, padHashes. rewrite even_mod2, length_map.
  destruct (Nat.even (length nodes)) eqn:Ev; simpl.
  - eauto.
  - destruct (exists_last (l := nodes)) as (front & x & ->).
    { intros ->. discriminate. }
    rewrite length_app. simpl.
    replace (Z.of_nat (length front + 1) - 1)%Z with (Z.of_nat (length front)) by lia.
    erewrite index_at_of_nat
      by (rewrite nth_error_app2 by lia; rewrite Nat.sub_diag; reflexivity).
    simpl. eexists; split; [reflexivity|].
    rewrite !map_app. simpl. now rewrite last_last.
Qed.

Lemma pairHashes_length (h : HashFn) (hs : list ByteSlice) :
  length (pairHashes h hs) = Nat.div2 (length hs).
Proof.
  induction hs as [| x | x y l IH] using pair_ind; simpl; auto.
Qed.

Lemma nextHashes_length (h : HashFn) (hs : list ByteSlice) :
  length (nextHashes h hs) = Nat.div2 (S (length hs)).
Proof.
  unfold nextHashes. rewrite pairHashes_length, padHashes_length.
  apply Nat.div2_double.
Qed.

Lemma combinePairs_hashes (h : HashFn) (nodes : list MerkleNode) :
  Nat.even (length nodes) = true ->
  forall level, exists parents,
    combinePairs h nodes level = Done (level ++ parents) /\
    map Hash parents = pairHashes h (map Hash nodes).
Proof.
  induction nodes as [| x | l r rest IH] using pair_ind; intros Ev level.
  - exists []. simpl. now rewrite app_nil_r.
  - discriminate.
  - destruct (IH Ev (level ++ [mkNode (Some l) (Some r) (h (append (Hash l) (Hash r)))]))
      as (parents & E & Hp).
    eexists (_ :: parents). simpl. rewrite E, <- app_assoc. simpl.
    split; [reflexivity|]. now rewrite Hp.
Qed.

Lemma hashPairs_hashes (h : HashFn) (level : list MerkleNode) :
  Nat.even (length level) = true ->
  forall nextLevel, exists parents,
    hashPairs h level nextLevel = Done (nextLevel ++ parents) /\
    map Hash parents = pairHashes h (map Hash level).
Proof.
  induction level as [| x | l r rest IH] using pair_ind; intros Ev nextLevel.
  - exists []. simpl. now rewrite app_nil_r.
  - discriminate.
  - destruct (IH Ev (nextLevel ++ [mkNode None None (h (append (Hash l) (Hash r)))]))
      as (parents & E & Hp).
    eexists (_ :: parents). simpl. rewrite E, <- app_assoc. simpl.
    split; [reflexivity|]. now rewrite Hp.
Qed.

Lemma siblingOf_SS (i : nat) : siblingOf (S (S i)) = S (S (siblingOf i)).
Proof.
  unfold siblingOf. rewrite Nat.even_succ_succ.
  destruct (Nat.even i) eqn:E; [reflexivity|].
  destruct i; [discriminate | reflexivity].
Qed.

Lemma pairHashes_nth (h : HashFn) (ps : list ByteSlice) :
  Nat.even (length ps) = true ->
  forall i cur, nth_error ps i = Some cur ->
  exists sib,
    nth_error ps (siblingOf i) = Some sib /\
    nth_error (pairHashes h ps) (Nat.div2 i) =
      Some (h (if Nat.even i then append cur sib else append sib cur)).
Proof.
  induction ps as [| x | x y l IH] using pair_ind; intros Ev i cur E.
  - destruct i; discriminate.
  - discriminate.
  - destruct i as [|[|i]].
    + injection E as <-. exists y. now split.
    + injection E as <-. exists x. now split.
    + destruct (IH Ev i cur E) as (sib & Es & En).
      exists sib. rewrite siblingOf_SS, Nat.even_succ_succ. now split.
Qed.

Lemma padHashes_nth (hs : list ByteSlice) (i : nat) (cur : ByteSlice) :
  nth_error hs i = Some cur -> nth_error (padHashes hs) i = Some cur.
Proof.
  intros E. unfold padHashes. destruct (Nat.even (length hs)); auto.
  rewrite nth_error_app1; auto. apply nth_error_Some. congruence.
Qed.

Lemma nextHashes_nth (h : HashFn) (hs : list ByteSlice) (i : nat) (cur : ByteSlice) :
  nth_error hs i = Some cur ->
  exists sib,
    nth_error (padHashes hs) (siblingOf i) = Some sib /\
    nth_error (nextHashes h hs) (Nat.div2 i) =
      Some (h (if Nat.even i then append cur sib else append sib cur)).
Proof.
  intros E. apply pairHashes_nth.
  - apply padHashes_even.
  - now apply padHashes_nth.
Qed.

(** Halving a level of at least two nodes leaves fewer nodes. *)
Lemma div2_succ_lt (n : nat) : 2 <= n -> Nat.div2 (S n) < n /\ 1 <= Nat.div2 (S n).
Proof.
  intros Hn. pose proof (Nat.div2_odd (S n)) as E.
  destruct (Nat.odd (S n)); simpl Nat.b2n in E; lia.
Qed.

Lemma log2_up_half (n : nat) : 2 <= n -> Nat.log2_up n = S (Nat.log2_up (Nat.div2 (S n))).
Proof.
  intros Hn. set (m := Nat.div2 (S n)).
  assert (n <= 2 * m <= S n) as Hm.
  { pose proof (Nat.div2_odd (S n)) as E. fold m in E.
    destruct (Nat.odd (S n)); simpl Nat.b2n in E; lia. }
  destruct (Nat.eq_dec m 1) as [E1 | N1].
  - rewrite E1. replace n with 2 by lia. reflexivity.
  - assert (1 < m) as Hm1 by lia.
    pose proof (Nat.log2_up_spec m Hm1) as [Lo Hi].
    pose proof (Nat.log2_up_pos m Hm1) as Lpos.
    apply Nat.log2_up_unique; [lia|].
    destruct (Nat.log2_up m) as [|L]; [lia|].
    simpl Nat.pred in *. rewrite (Nat.pow_succ_r' 2 (S L)).
    rewrite (Nat.pow_succ_r' 2 L) in *. lia.
Qed.

(** ** The loops *)

Lemma rootHashes_short (fuel : nat) (h : HashFn) (hs : list ByteSlice) :
  length hs <= 1 -> rootHashes fuel h hs = hs.
Proof.
  intros Hl. destruct fuel; simpl; auto.
  destruct (Nat.leb_spec (length hs) 1); auto; lia.
Qed.

Lemma rootHashes_step (fuel : nat) (h : HashFn) (hs : list ByteSlice) :
  2 <= length hs -> rootHashes (S fuel) h hs = rootHashes fuel h (nextHashes h hs).
Proof.
  intros Hl. simpl. destruct (Nat.leb_spec (length hs) 1); auto; lia.
Qed.

Lemma rootHashes_singleton (h : HashFn) (fuel : nat) :
  forall hs, 1 <= length hs <= fuel -> exists r, rootHashes fuel h hs = [r].
Proof.
  induction fuel as [|fuel IH]; intros hs Hl; [lia|].
  destruct (Nat.le_gt_cases (length hs) 1) as [Short | Long].
  - rewrite rootHashes_short by assumption.
    destruct hs as [|r [|? ?]]; simpl in *; try lia. now exists r.
  - rewrite rootHashes_step by lia. apply IH.
    rewrite nextHashes_length. pose proof (div2_succ_lt Long). lia.
Qed.

Lemma buildLoop_hashes (h : HashFn) (fuel : nat) :
  forall nodes, length nodes <= fuel ->
  exists res, buildLoop fuel h nodes = Done res /\
              map Hash res = rootHashes fuel h (map Hash nodes).
Proof.
  induction fuel as [|fuel IH]; intros nodes Hl.
  - exists nodes. simpl. destruct (Nat.leb_spec (length nodes) 1); [auto | lia].
  - simpl buildLoop. destruct (Nat.leb_spec (length nodes) 1) as [Short | Long].
    + exists nodes. split; auto.
      rewrite rootHashes_short; auto. now rewrite length_map.
    + destruct (dupLast_hashes nodes) as (nodes1 & -> & Hpad). simpl obind.
      assert (Nat.even (length nodes1) = true) as Ev.
      { rewrite <- (length_map Hash), Hpad. apply padHashes_even. }
      destruct (combinePairs_hashes h nodes1 Ev []) as (level & -> & Hlevel).
      cbn [obind app]. rewrite Hpad in Hlevel. fold (nextHashes h (map Hash nodes)) in Hlevel.
      rewrite rootHashes_step by (rewrite length_map; lia).
      rewrite <- Hlevel. apply IH.
      rewrite <- (length_map Hash), Hlevel, nextHashes_length, length_map.
      pose proof (div2_succ_lt Long). lia.
Qed.

Lemma verifyLoop_step (h : HashFn) (cur sib : ByteSlice) (i : nat) (rest : list ByteSlice) :
  verifyLoop h cur (Z.of_nat i) (sib :: rest) =
  verifyLoop h (h (if Nat.even i then append cur sib else append sib cur))
    (Z.of_nat (Nat.div2 i)) rest.
Proof. simpl. now rewrite rem_2_of_nat, quot_2_of_nat. Qed.

Lemma proofLoop_verify (h : HashFn) (fuel : nat) :
  forall level i proof cur,
    length level <= fuel ->
    nth_error (map Hash level) i = Some cur ->
    exists siblings,
      proofLoop fuel h (length level) level (Z.of_nat i) proof = Done (proof ++ siblings) /\
      length siblings = Nat.log2_up (length level) /\
      rootHashes fuel h (map Hash level) = [verifyLoop h cur (Z.of_nat i) siblings].
Proof.
  induction fuel as [|fuel IH]; intros level i proof cur Hl E.
  - destruct level; [destruct i; discriminate | simpl in Hl; lia].
  - assert (i < length level) as Hi.
    { rewrite <- (length_map Hash). apply nth_error_Some. congruence. }
    simpl proofLoop. destruct (Nat.leb_spec (length level) 1) as [Short | Long].
    + exists []. rewrite app_nil_r.
      destruct level as [|x [|? ?]]; simpl in *; try lia.
      replace i with 0 in * by lia. simpl in E. injection E as <-.
      repeat split; auto.
    + destruct (dupLast_hashes level) as (level1 & -> & Hpad). simpl obind.
      destruct (nextHashes_nth h _ _ E) as (sib & Esib & Enext).
      rewrite <- Hpad, nth_error_map in Esib.
      destruct (nth_error level1 (siblingOf i)) as [sibling|] eqn:Esibling;
        [|discriminate].
      simpl in Esib. injection Esib as Esib.
      rewrite lxor_1_of_nat, (index_at_of_nat _ _ Esibling). simpl obind.
      assert (Nat.even (length level1) = true) as Ev.
      { rewrite <- (length_map Hash), Hpad. apply padHashes_even. }
      destruct (hashPairs_hashes h level1 Ev []) as (nextLevel & -> & Hnext).
      cbn [obind app]. rewrite Hpad in Hnext. fold (nextHashes h (map Hash level)) in Hnext.
      rewrite <- Hnext in Enext.
      assert (length nextLevel = Nat.div2 (S (length level))) as Hlen.
      { now rewrite <- (length_map Hash), Hnext, nextHashes_length, length_map. }
      pose proof (div2_succ_lt Long) as Hhalf.
      rewrite quot_2_of_nat.
      destruct (IH nextLevel (Nat.div2 i) (proof ++ [Hash sibling]) _ ltac:(lia) Enext)
        as (siblings & Eloop & Hsize & Hroot).
      exists (Hash sibling :: siblings). repeat split.
      * rewrite Eloop, <- app_assoc. reflexivity.
      * simpl. rewrite Hsize, Hlen. symmetry. now apply log2_up_half.
      * rewrite rootHashes_step by (rewrite length_map; lia).
        rewrite <- Hnext, Hroot, verifyLoop_step, Esib. reflexivity.
Qed.

(** ** The methods *)

Lemma rootHashes_leaves (t : DefaultMerkleTree) :
  leaves t <> [] ->
  exists r, rootHashes (length (leaves t)) (hashFn t) (map (hashFn t) (leaves t)) = [r] /\
            rootOf (hashFn t) (leaves t) = r.
Proof.
  intros Hne.
  destruct (rootHashes_singleton (hashFn t) (fuel := length (leaves t))
              (map (hashFn t) (leaves t))) as (r & E).
  - rewrite length_map. destruct (leaves t); [congruence | simpl; lia].
  - exists r. unfold rootOf. now rewrite E.
Qed.

(** [buildTree] never panics and never runs out of its bound; it stores a
    root computed from the hash function and the leaves alone. *)
Lemma buildTree_spec (t : DefaultMerkleTree) :
  exists r,
    buildTree t = Done (tt, mkTree (hashFn t) (leaves t) r) /\
    (r = None <-> leaves t = []) /\
    (forall n, r = Some n -> Hash n = rootOf (hashFn t) (leaves t)).
Proof.
  destruct t as [h ls r0]. run_method.
  rewrite leafNodes_length.
  destruct (Nat.eqb_spec (length ls) 0) as [E0 | N0].
  - apply length_zero_iff_nil in E0. subst ls.
    exists None. repeat split; auto; discriminate.
  - assert (ls <> []) as Hne by (intros ->; now apply N0).
    destruct (buildLoop_hashes h (fuel := length ls) (leafNodes h ls []))
      as (res & -> & Hres).
    { now rewrite leafNodes_length. }
    rewrite leafNodes_hashes in Hres. simpl app in Hres.
    destruct (rootHashes_leaves (mkTree h ls r0) Hne) as (r & Er & Eroot).
    simpl in Er, Eroot. rewrite Er in Hres.
    destruct res as [|n [|? ?]]; try discriminate.
    injection Hres as Hn. exists (Some n). simpl.
    repeat split; try discriminate; auto.
    + intros E0. now destruct (Hne E0).
    + intros n' [= <-]. congruence.
Qed.

Lemma buildTree_root_irrelevant (h : HashFn) (ls : list ByteSlice)
    (r0 r1 : option MerkleNode) :
  buildTree (mkTree h ls r0) = buildTree (mkTree h ls r1).
Proof.
  run_method. destruct (_ =? 0); [reflexivity|].
  destruct (buildLoop _ _ _); try reflexivity.
  destruct (index_at _ _); reflexivity.
Qed.

Lemma AddLeaf_spec (t : DefaultMerkleTree) (data : ByteSlice) :
  exists t',
    AddLeaf data t = Done (None, t') /\
    hashFn t' = hashFn t /\
    leaves t' = leaves t ++ [data] /\
    buildTree t' = Done (tt, t').
Proof.
  destruct t as [h ls r0].
  destruct (buildTree_spec (mkTree h (ls ++ [data]) r0)) as (r & E & _).
  simpl in E. exists (mkTree h (ls ++ [data]) r).
  repeat split.
  - unfold AddLeaf, bind, get, set_leaves, ret. simpl. now rewrite E.
  - now rewrite (buildTree_root_irrelevant h (ls ++ [data]) r r0).
Qed.

(** Every state an engine can reach stores the root of its current leaves. *)
Lemma reachable_consistent (t : DefaultMerkleTree) :
  reachable t -> buildTree t = Done (tt, t).
Proof.
  induction 1 as [h | t t' c R IH E].
  - reflexivity.
  - destruct c as [data | | index | leaf index proof rt].
    + destruct (AddLeaf_spec t data) as (t1 & Ea & _ & _ & Eb).
      unfold call, bind, ret in E. rewrite Ea in E. now injection E as <-.
    + revert E. run_method. destruct t as [h ls [n|]]; intros [= <-]; exact IH.
    + revert E. run_method. destruct t as [h ls r0].
      destruct (_ || _)%bool; [intros [= <-]; exact IH|].
      destruct (proofLoop _ _ _ _ _ _); try discriminate.
      intros [= <-]; exact IH.
    + revert E. run_method. intros [= <-]; exact IH.
Qed.

Lemma reachable_root (t : DefaultMerkleTree) :
  reachable t ->
  (root t = None <-> leaves t = []) /\
  (forall n, root t = Some n -> Hash n = rootOf (hashFn t) (leaves t)).
Proof.
  intros R. apply reachable_consistent in R.
  destruct (buildTree_spec t) as (r & E & Hnil & Hhash).
  rewrite R in E. injection E as E.
  assert (root t = r) as -> by (rewrite E at 1; reflexivity).
  now split.
Qed.

Lemma Root_spec (t : DefaultMerkleTree) :
  reachable t -> Root t = Done (rootOf (hashFn t) (leaves t), t).
Proof.
  intros R. destruct (reachable_root R) as [Hnil Hhash].
  unfold Root, bind, get, ret. destruct (root t) as [n|] eqn:Er.
  - now rewrite (Hhash n eq_refl).
  - destruct Hnil as [Hnil _]. now rewrite (Hnil eq_refl).
Qed.

Lemma addLeaves_reachable (data : list ByteSlice) :
  forall t t', reachable t -> addLeaves data t = Done (tt, t') -> reachable t'.
Proof.
  induction data as [|d data IH]; intros t t' R E.
  - injection E as <-. exact R.
  - simpl in E. unfold bind in E.
    destruct (AddLeaf_spec t d) as (t1 & Ea & _). rewrite Ea in E.
    apply (IH t1); auto.
    apply (reachable_call (CallAddLeaf d) R).
    unfold call, bind, ret. now rewrite Ea.
Qed.

(** Adding leaves one by one always succeeds, and stores them in order. *)
Lemma addLeaves_spec (data : list ByteSlice) :
  forall t, exists t',
    addLeaves data t = Done (tt, t') /\
    hashFn t' = hashFn t /\
    leaves t' = leaves t ++ data.
Proof.
  induction data as [|d data IH]; intros t.
  - exists t. simpl. now rewrite app_nil_r.
  - destruct (AddLeaf_spec t d) as (t1 & Ea & Eh & El & _).
    destruct (IH t1) as (t' & E & Eh' & El').
    exists t'. simpl. unfold bind. rewrite Ea. repeat split; auto.
    + congruence.
    + rewrite El', El, <- app_assoc. reflexivity.
Qed.

Lemma GenerateProof_out_of_range (t : DefaultMerkleTree) (index : Z) :
  (index < 0 \/ Z.of_nat (length (leaves t)) <= index)%Z ->
  GenerateProof index t = Done (([], Some "index out of bounds"%string), t).
Proof.
  intros Hr. run_method. destruct t as [h ls r0]. simpl in Hr.
  destruct (Z.ltb_spec index 0); simpl; auto.
  destruct (Z.leb_spec (Z.of_nat (length ls)) index); simpl; auto. lia.
Qed.

Lemma GenerateProof_in_range (t : DefaultMerkleTree) (i : nat) (L : ByteSlice) :
  nth_error (leaves t) i = Some L ->
  exists proof,
    GenerateProof (Z.of_nat i) t = Done ((proof, None), t) /\
    length proof = Nat.log2_up (length (leaves t)) /\
    verifyLoop (hashFn t) (hashFn t L) (Z.of_nat i) proof = rootOf (hashFn t) (leaves t).
Proof.
  intros E.
  assert (i < length (leaves t)) as Hi by (apply nth_error_Some; congruence).
  destruct t as [h ls r0]. simpl in *. run_method.
  destruct (Z.ltb_spec (Z.of_nat i) 0); [lia|].
  destruct (Z.leb_spec (Z.of_nat (length ls)) (Z.of_nat i)); [lia|]. simpl orb. cbv iota.
  destruct (proofLoop_verify h (fuel := length ls) (leafNodes h ls []) i [] (cur := h L))
    as (proof & Eloop & Hsize & Hroot).
  - now rewrite leafNodes_length.
  - rewrite leafNodes_hashes. simpl app. rewrite nth_error_map, E. reflexivity.
  - rewrite leafNodes_length in Eloop, Hsize. rewrite Eloop.
    exists proof. repeat split; auto.
    rewrite leafNodes_hashes in Hroot. simpl app in Hroot.
    unfold rootOf. now rewrite Hroot.
Qed.

Lemma VerifyProof_spec (t : DefaultMerkleTree) (leaf : ByteSlice) (index : Z)
    (proof : list ByteSlice) (rt : ByteSlice) :
  VerifyProof leaf index proof rt t =
  Done (string_eqb (verifyLoop (hashFn t) (hashFn t leaf) index proof) rt, t).
Proof. reflexivity. Qed.

Lemma tree_of_reachable (h : HashFn) (data : list ByteSlice) : reachable (tree_of h data).
Proof.
  unfold tree_of.
  destruct (addLeaves_spec data (NewDefaultMerkleTree h)) as (t & E & _).
  rewrite E. apply (addLeaves_reachable data (reachable_new h) E).
Qed.

Lemma tree_of_leaves (h : HashFn) (data : list ByteSlice) :
  hashFn (tree_of h data) = h /\ leaves (tree_of h data) = data.
Proof.
  unfold tree_of.
  destruct (addLeaves_spec data (NewDefaultMerkleTree h)) as (t & E & Eh & El).
  rewrite E. now split.
Qed.

Lemma pairHashes_hashed (h : HashFn) (hs : list ByteSlice) :
  Forall (hashed h) (pairHashes h hs).
Proof.
  induction hs as [| x | x y l IH] using pair_ind; simpl; auto.
  constructor; auto. now eexists.
Qed.

Lemma rootHashes_hashed (h : HashFn) (fuel : nat) :
  forall hs, Forall (hashed h) hs -> Forall (hashed h) (rootHashes fuel h hs).
Proof.
  induction fuel as [|fuel IH]; intros hs F; simpl; auto.
  destruct (length hs <=? 1); auto.
  apply IH. apply pairHashes_hashed.
Qed.

Lemma rootOf_hashed (h : HashFn) (ls : list ByteSlice) :
  ls <> [] -> hashed h (rootOf h ls).
Proof.
  intros Hne.
  destruct (rootHashes_leaves (mkTree h ls None) Hne) as (r & Er & Eroot).
  simpl in Er, Eroot. rewrite Eroot.
  assert (Forall (hashed h) [r]) as F.
  { rewrite <- Er. apply rootHashes_hashed.
    apply Forall_forall. intros x Hx. apply in_map_iff in Hx as (d & <- & _).
    now exists d. }
  now inversion F.
Qed.

Lemma GenerateProof_valid_index (t : DefaultMerkleTree) (index : Z) :
  (0 <= index < Z.of_nat (length (leaves t)))%Z ->
  exists proof,
    GenerateProof index t = Done ((proof, None), t) /\
    length proof = Nat.log2_up (length (leaves t)).
Proof.
  intros Hrange.
  destruct (nth_error (leaves t) (Z.to_nat index)) as [L|] eqn:E.
  - destruct (GenerateProof_in_range t _ E) as (proof & Eg & Hsize & _).
    rewrite Z2Nat.id in Eg by lia. eauto.
  - apply nth_error_None in E. lia.
Qed.

Lemma generateProof_out_of_range_or_not (t : DefaultMerkleTree) (index : Z) :
  GenerateProof index t = Done (([], Some "index out of bounds"%string), t) \/
  exists proof, GenerateProof index t = Done ((proof, None), t).
Proof.
  destruct (Z.lt_ge_cases index 0) as [Neg | Pos];
    [| destruct (Z.le_gt_cases (Z.of_nat (length (leaves t))) index) as [Big | In]].
  - left. apply GenerateProof_out_of_range. lia.
  - left. apply GenerateProof_out_of_range. lia.
  - right. destruct (GenerateProof_valid_index t (conj Pos In)) as (proof & Eg & _).
    eauto.
Qed.

(** The three queries return with the engine they were called on. *)
Lemma queries_return_same_engine (t : DefaultMerkleTree) :
  (exists r, Root t = Done (r, t)) /\
  (forall index, exists res, GenerateProof index t = Done (res, t)) /\
  (forall leaf index proof rt, exists b, VerifyProof leaf index proof rt t = Done (b, t)).
Proof.
  repeat split.
  - unfold Root, bind, get, ret. destruct (root t); eauto.
  - intros index.
    destruct (generateProof_out_of_range_or_not t index) as [E | (proof & E)];
      rewrite E; eauto.
  - intros leaf index proof rt. rewrite VerifyProof_spec. eauto.
Qed.

Lemma string_eqb_refl (a : ByteSlice) : string_eqb a a = true.
Proof. now apply string_eqb_eq. Qed.

(** * The claims *)

(** C1 (round trip).  In every engine state reached by adding leaves
    [L0..Ln-1], for every valid index [i] the proof returned by
    [GenerateProof(i)] makes [VerifyProof(L_i, i, proof, Root())] return
    true; none of the three calls panics or changes the engine. *)
Theorem roundtrip_proof_verifies (t : DefaultMerkleTree) (index : Z) (L : ByteSlice) :
  reachable t ->
  (0 <= index < Z.of_nat (length (leaves t)))%Z ->
  nth_error (leaves t) (Z.to_nat index) = Some L ->
  exists proof r,
    GenerateProof index t = Done ((proof, None), t) /\
    Root t = Done (r, t) /\
    VerifyProof L index proof r t = Done (true, t).
Proof.
  intros R Hrange E.
  destruct (GenerateProof_in_range t _ E) as (proof & Eg & _ & Ev).
  rewrite Z2Nat.id in Eg, Ev by lia.
  exists proof, (rootOf (hashFn t) (leaves t)). repeat split; auto.
  - now apply Root_spec.
  - rewrite VerifyProof_spec, Ev. now rewrite string_eqb_refl.
Qed.

Lemma roundtrip_proof_verifies_witness :
  reachable abc_tree /\
  (0 <= 2 < Z.of_nat (length (leaves abc_tree)))%Z /\
  nth_error (leaves abc_tree) (Z.to_nat 2) = Some leaf_c /\
  exists proof r,
    GenerateProof 2 abc_tree = Done ((proof, None), abc_tree) /\
    Root abc_tree = Done (r, abc_tree) /\
    VerifyProof leaf_c 2 proof r abc_tree = Done (true, abc_tree).
Proof.
  assert (reachable abc_tree) as R by apply tree_of_reachable.
  assert (0 <= 2 < Z.of_nat (length (leaves abc_tree)))%Z as Hr by (vm_compute; split; congruence).
  assert (nth_error (leaves abc_tree) (Z.to_nat 2) = Some leaf_c) as E by reflexivity.
  repeat split; try assumption; try apply Hr.
  exact (roundtrip_proof_verifies R Hr E).
Defined.

(** C3 (proof length).  For every state with [n >= 1] leaves and every
    valid index, [GenerateProof] returns exactly [ceil(log2 n)] siblings;
    with a single leaf the proof is empty. *)
Theorem proof_length_log2_up (t : DefaultMerkleTree) (index : Z) :
  (0 <= index < Z.of_nat (length (leaves t)))%Z ->
  exists proof,
    GenerateProof index t = Done ((proof, None), t) /\
    length proof = Nat.log2_up (length (leaves t)) /\
    (length (leaves t) = 1 -> proof = []).
Proof.
  intros Hrange.
  destruct (GenerateProof_valid_index t Hrange) as (proof & Eg & Hsize).
  exists proof. repeat split; auto.
  intros H1. rewrite H1 in Hsize. now apply length_zero_iff_nil.
Qed.

Lemma proof_length_log2_up_witness :
  (0 <= 2 < Z.of_nat (length (leaves abc_tree)))%Z /\
  exists proof,
    GenerateProof 2 abc_tree = Done ((proof, None), abc_tree) /\
    length proof = Nat.log2_up (length (leaves abc_tree)) /\
    (length (leaves abc_tree) = 1 -> proof = []).
Proof.
  assert (0 <= 2 < Z.of_nat (length (leaves abc_tree)))%Z as Hr by (vm_compute; split; congruence).
  split; [exact Hr | exact (proof_length_log2_up abc_tree Hr)].
Defined.

(** C4 (index out of range).  [GenerateProof(index)] returns the error
    "index out of bounds" exactly when [index < 0] or
    [index >= len(leaves)], hence always on an empty engine; otherwise it
    returns a nil error.  In both cases the engine is left as it was. *)
Theorem generateProof_error_iff_out_of_range (t : DefaultMerkleTree) (index : Z) :
  exists proof err,
    GenerateProof index t = Done ((proof, err), t) /\
    (err = Some "index out of bounds"%string <->
       (index < 0 \/ Z.of_nat (length (leaves t)) <= index)%Z) /\
    (err = None <-> (0 <= index < Z.of_nat (length (leaves t)))%Z) /\
    (err <> None -> proof = []) /\
    (leaves t = [] -> err = Some "index out of bounds"%string).
Proof.
  destruct (Z.lt_ge_cases index 0) as [Neg | Pos];
    [| destruct (Z.le_gt_cases (Z.of_nat (length (leaves t))) index) as [Big | In]].
  - exists [], (Some "index out of bounds"%string).
    rewrite GenerateProof_out_of_range by lia.
    repeat split; auto; try discriminate; lia.
  - exists [], (Some "index out of bounds"%string).
    rewrite GenerateProof_out_of_range by lia.
    repeat split; auto; try discriminate; lia.
  - destruct (GenerateProof_valid_index t (conj Pos In)) as (proof & Eg & _).
    exists proof, None. repeat split; auto; try lia; try congruence.
    intros Hnil. rewrite Hnil in In. simpl in In. lia.
Qed.

(** C6 (single leaf).  An engine holding exactly one leaf [L] has
    [Root() = H(L)], [GenerateProof(0)] returns the empty proof, and
    [VerifyProof(L, 0, [], Root())] returns true. *)
Theorem single_leaf_identity (t : DefaultMerkleTree) (L : ByteSlice) :
  reachable t ->
  leaves t = [L] ->
  Root t = Done (hashFn t L, t) /\
  GenerateProof 0 t = Done (([], None), t) /\
  VerifyProof L 0 [] (hashFn t L) t = Done (true, t).
Proof.
  intros R El. repeat split.
  - rewrite (Root_spec R), El. reflexivity.
  - destruct (GenerateProof_valid_index t (index := 0)) as (proof & Eg & Hsize).
    + rewrite El. simpl. lia.
    + rewrite El in Hsize. apply length_zero_iff_nil in Hsize. now rewrite Eg, Hsize.
  - rewrite VerifyProof_spec. simpl. now rewrite string_eqb_refl.
Qed.

Lemma single_leaf_identity_witness :
  reachable a_tree /\
  leaves a_tree = [leaf_a] /\
  Root a_tree = Done (hashFn a_tree leaf_a, a_tree) /\
  GenerateProof 0 a_tree = Done (([], None), a_tree) /\
  VerifyProof leaf_a 0 [] (hashFn a_tree leaf_a) a_tree = Done (true, a_tree).
Proof.
  assert (reachable a_tree) as R by apply tree_of_reachable.
  assert (leaves a_tree = [leaf_a]) as El by reflexivity.
  split; [exact R | split; [exact El | exact (single_leaf_identity R El)]].
Defined.

Lemma dupLast_snoc (nodes : list MerkleNode) (n : MerkleNode) :
  dupLast (nodes ++ [n]) =
  Done (if Nat.even (length nodes) then nodes ++ [n; n] else nodes ++ [n]).
Proof.
  unfold dupLast. rewrite even_mod2, length_app. simpl length.
  rewrite Nat.add_1_r, Nat.even_succ, <- Nat.negb_even.
  destruct (Nat.even (length nodes)); cbn [negb]; auto.
  replace (Z.of_nat (S (length nodes)) - 1)%Z with (Z.of_nat (length nodes)) by lia.
  erewrite index_at_of_nat
    by (rewrite nth_error_app2 by lia; rewrite Nat.sub_diag; reflexivity).
  simpl. now rewrite <- app_assoc.
Qed.

(** C7 (odd-leaf duplication).  For every hash function and leaves a, b, c
    the engines built from [a, b, c] and from [a, b, c, c] have the same
    root, [H(H(H a ++ H b) ++ H(H c ++ H c))]: a level whose node count is
    odd gets its last node appended once more before pairing, a level whose
    count is even is paired as it is. *)
Theorem odd_leaf_duplication (h : HashFn) :
  (forall a b c : ByteSlice,
     exists t3 t4 r,
       addLeaves [a; b; c] (NewDefaultMerkleTree h) = Done (tt, t3) /\
       addLeaves [a; b; c; c] (NewDefaultMerkleTree h) = Done (tt, t4) /\
       Root t3 = Done (r, t3) /\
       Root t4 = Done (r, t4) /\
       r = h (append (h (append (h a) (h b))) (h (append (h c) (h c))))) /\
  (forall (nodes : list MerkleNode) (n : MerkleNode),
     dupLast (nodes ++ [n]) =
     Done (if Nat.even (length nodes) then nodes ++ [n; n] else nodes ++ [n])).
Proof.
  split.
  - intros a b c. do 3 eexists. repeat split; reflexivity.
  - apply dupLast_snoc.
Qed.


(** C10 (empty proof).  [VerifyProof] checks its index against nothing:
    with an empty proof, for every leaf, every index (negative or beyond
    the leaf count included) and every expected root it returns true
    exactly when the bytes of [H(leaf)] are those of the expected root. *)
Theorem verifyProof_empty_proof_ignores_index
    (t : DefaultMerkleTree) (leaf : ByteSlice) (index : Z) (rt : ByteSlice) :
  exists b,
    VerifyProof leaf index [] rt t = Done (b, t) /\
    (b = true <-> bytes_of (hashFn t leaf) = bytes_of rt).
Proof.
  rewrite VerifyProof_spec. eexists; split; [reflexivity|].
  simpl. apply string_eqb_eq.
Qed.

(** Go's [index%2 == 0] is evenness, for negative indexes too. *)
Lemma rem_2_even (index : Z) : (Z.rem index 2 =? 0)%Z = Z.even index.
Proof. symmetry. apply Zquot.Zeven_rem. Qed.

Lemma verifyLoop_fold (h : HashFn) (proof : list ByteSlice) :
  forall hash index,
    verifyLoop h hash index proof =
    fst (fold_left (verifyStep truncHalf h) proof (hash, index)).
Proof.
  induction proof as [|sibling rest IH]; intros hash index; simpl; auto.
  rewrite IH, rem_2_even. unfold truncHalf. now destruct (Z.even index).
Qed.

Lemma verifyStep_floor_trunc (h : HashFn) (proof : list ByteSlice) :
  forall hash index,
    (0 <= index)%Z ->
    fold_left (verifyStep floorHalf h) proof (hash, index) =
    fold_left (verifyStep truncHalf h) proof (hash, index).
Proof.
  induction proof as [|sibling rest IH]; intros hash index Hpos; simpl; auto.
  unfold floorHalf at 2, truncHalf at 2.
  rewrite Z.quot_div_nonneg by lia.
  apply IH. apply Z.div_pos; lia.
Qed.










(** * Further properties of the package *)

(** ** The levels of [buildTree], node by node *)

Lemma leafNodes_map (h : HashFn) (ls : list ByteSlice) :
  forall nodes, leafNodes h ls nodes = nodes ++ map (leafNode h) ls.
Proof.
  induction ls as [|d ls IH]; intros nodes; simpl.
  - now rewrite app_nil_r.
  - rewrite IH, <- app_assoc. reflexivity.
Qed.

Lemma padNodes_hashes (nodes : list MerkleNode) :
  map Hash (padNodes nodes) = padHashes (map Hash nodes).
Proof.
  unfold padNodes, padHashes. rewrite length_map.
  destruct (Nat.even (length nodes)) eqn:Ev; auto.
  destruct (exists_last (l := nodes)) as (front & x & ->).
  { intros ->. discriminate. }
  rewrite !map_app. simpl. now rewrite !last_last.
Qed.

Lemma pairNodes_hashes (h : HashFn) (nodes : list MerkleNode) :
  map Hash (pairNodes h nodes) = pairHashes h (map Hash nodes).
Proof.
  induction nodes as [| x | l r rest IH] using pair_ind; simpl; auto.
  now rewrite IH.
Qed.

Lemma dupLast_padNodes (nodes : list MerkleNode) :
  dupLast nodes = Done (padNodes nodes).
Proof.
  unfold padNodes.
  destruct nodes as [|n0 rest] using rev_ind; [reflexivity|].
  rewrite dupLast_snoc, length_app, last_last. simpl length.
  rewrite Nat.add_1_r, Nat.even_succ, <- Nat.negb_even.
  destruct (Nat.even (length rest)); simpl; auto.
  now rewrite <- app_assoc.
Qed.

Lemma combinePairs_pairNodes (h : HashFn) (nodes : list MerkleNode) :
  Nat.even (length nodes) = true ->
  forall level, combinePairs h nodes level = Done (level ++ pairNodes h nodes).
Proof.
  induction nodes as [| x | l r rest IH] using pair_ind; intros Ev level.
  - simpl. now rewrite app_nil_r.
  - discriminate.
  - simpl. rewrite (IH Ev). now rewrite <- app_assoc.
Qed.

Lemma padNodes_even (nodes : list MerkleNode) :
  Nat.even (length (padNodes nodes)) = true.
Proof.
  rewrite <- (length_map Hash), padNodes_hashes. apply padHashes_even.
Qed.

Lemma nextNodes_length (h : HashFn) (nodes : list MerkleNode) :
  length (pairNodes h (padNodes nodes)) = Nat.div2 (S (length nodes)).
Proof.
  rewrite <- (length_map Hash), pairNodes_hashes, padNodes_hashes.
  fold (nextHashes h (map Hash nodes)).
  now rewrite nextHashes_length, length_map.
Qed.

Lemma buildLoop_step (fuel : nat) (h : HashFn) (nodes : list MerkleNode) :
  2 <= length nodes ->
  buildLoop (S fuel) h nodes = buildLoop fuel h (pairNodes h (padNodes nodes)).
Proof.
  intros Long. simpl buildLoop.
  destruct (Nat.leb_spec (length nodes) 1); [lia|].
  rewrite dupLast_padNodes. cbn [obind].
  rewrite (combinePairs_pairNodes h _ (padNodes_even nodes)). reflexivity.
Qed.

Lemma padNodes_nth (nodes : list MerkleNode) (i : nat) (cur : MerkleNode) :
  nth_error nodes i = Some cur -> nth_error (padNodes nodes) i = Some cur.
Proof.
  intros E. unfold padNodes. destruct (Nat.even (length nodes)); auto.
  rewrite nth_error_app1; auto. apply nth_error_Some. congruence.
Qed.

Lemma pairNodes_nth (h : HashFn) (ps : list MerkleNode) :
  Nat.even (length ps) = true ->
  forall i cur, nth_error ps i = Some cur ->
  exists sib,
    nth_error ps (siblingOf i) = Some sib /\
    nth_error (pairNodes h ps) (Nat.div2 i) =
      Some (if Nat.even i then parentNode h cur sib else parentNode h sib cur).
Proof.
  induction ps as [| x | x y l IH] using pair_ind; intros Ev i cur E.
  - destruct i; discriminate.
  - discriminate.
  - destruct i as [|[|i]].
    + injection E as <-. exists y. now split.
    + injection E as <-. exists x. now split.
    + destruct (IH Ev i cur E) as (sib & Es & En).
      exists sib. rewrite siblingOf_SS, Nat.even_succ_succ. now split.
Qed.

Lemma padNodes_perfect (h : HashFn) (d : nat) (nodes : list MerkleNode) :
  Forall (perfect h d) nodes -> Forall (perfect h d) (padNodes nodes).
Proof.
  intros F. unfold padNodes. destruct (Nat.even (length nodes)) eqn:Ev; auto.
  destruct (exists_last (l := nodes)) as (front & x & ->).
  { intros ->. discriminate. }
  rewrite last_last. apply Forall_app. split; auto.
  apply Forall_app in F as [_ Fx]. exact Fx.
Qed.

Lemma pairNodes_perfect (h : HashFn) (d : nat) (nodes : list MerkleNode) :
  Forall (perfect h d) nodes -> Forall (perfect h (S d)) (pairNodes h nodes).
Proof.
  induction nodes as [| x | l r rest IH] using pair_ind; intros F; simpl; auto.
  inversion F as [|? ? Pl F1]; subst. inversion F1 as [|? ? Pr F2]; subst.
  constructor; auto. now constructor.
Qed.

Lemma nodeAt_parent (h : HashFn) (d i : nat) (cur sib : MerkleNode) :
  nodeAt (S d)
    (if Nat.even (Nat.shiftr i d) then parentNode h cur sib else parentNode h sib cur) i
  = nodeAt d cur i.
Proof.
  simpl. rewrite Nat.testbit_odd, <- Nat.negb_even.
  now destruct (Nat.even (Nat.shiftr i d)).
Qed.

Lemma pathSiblings_parent (h : HashFn) (d i : nat) (cur sib : MerkleNode) :
  pathSiblings (S d)
    (if Nat.even (Nat.shiftr i d) then parentNode h cur sib else parentNode h sib cur) i
  = pathSiblings d cur i ++ [Hash sib].
Proof.
  simpl. rewrite Nat.testbit_odd, <- Nat.negb_even.
  now destruct (Nat.even (Nat.shiftr i d)).
Qed.

(** [buildTree] and [GenerateProof] level by level, side by side: the
    sibling that the proof loop records at a level is the hash of the node
    that the build loop pairs with the node on the path. *)
Lemma build_proof_lockstep (h : HashFn) (fuel : nat) :
  forall nodes level d i cur proof,
    length nodes <= fuel ->
    map Hash level = map Hash nodes ->
    Forall (perfect h d) nodes ->
    nth_error nodes (Nat.shiftr i d) = Some cur ->
    exists r siblings,
      buildLoop fuel h nodes = Done [r] /\
      proofLoop fuel h (length level) level (Z.of_nat (Nat.shiftr i d)) proof
        = Done (proof ++ siblings) /\
      perfect h (d + Nat.log2_up (length nodes)) r /\
      nodeAt (d + Nat.log2_up (length nodes)) r i = nodeAt d cur i /\
      pathSiblings (d + Nat.log2_up (length nodes)) r i = pathSiblings d cur i ++ siblings.
Proof.
  induction fuel as [|fuel IH]; intros nodes level d i cur proof Hl Hh F E.
  - destruct nodes; [destruct (Nat.shiftr i d); discriminate | simpl in Hl; lia].
  - assert (Nat.shiftr i d < length nodes) as Hi by (apply nth_error_Some; congruence).
    assert (length level = length nodes) as Hlen.
    { now rewrite <- (length_map Hash level), Hh, length_map. }
    destruct (Nat.le_gt_cases (length nodes) 1) as [Short | Long].
    + exists cur, []. rewrite app_nil_r, app_nil_r.
      destruct nodes as [|x [|? ?]]; simpl in Hi, Short; try lia.
      replace (Nat.shiftr i d) with 0 in * by lia. simpl in E. injection E as ->.
      inversion F; subst.
      simpl buildLoop. simpl proofLoop. rewrite Hlen. simpl.
      rewrite Nat.add_0_r. repeat split; auto.
    + rewrite buildLoop_step by lia.
      simpl proofLoop. rewrite Hlen.
      destruct (Nat.leb_spec (length nodes) 1); [lia|].
      destruct (pairNodes_nth h _ (padNodes_even nodes) _ (padNodes_nth _ _ E))
        as (sibN & EsibN & Eparent).
      destruct (dupLast_hashes level) as (level1 & -> & Hpad). cbn [obind].
      rewrite Hh, <- padNodes_hashes in Hpad.
      assert (exists sibL, nth_error level1 (siblingOf (Nat.shiftr i d)) = Some sibL /\
                           Hash sibL = Hash sibN) as (sibL & EsibL & Hsib).
      { apply (f_equal (fun l => nth_error l (siblingOf (Nat.shiftr i d)))) in Hpad.
        rewrite !nth_error_map, EsibN in Hpad.
        destruct (nth_error level1 _) as [sibL|]; [|discriminate].
        exists sibL. split; auto. simpl in Hpad. congruence. }
      rewrite lxor_1_of_nat, (index_at_of_nat _ _ EsibL). cbn [obind].
      assert (Nat.even (length level1) = true) as Ev.
      { rewrite <- (length_map Hash), Hpad, length_map. apply padNodes_even. }
      destruct (hashPairs_hashes h level1 Ev []) as (nextLevel & -> & Hnext).
      cbn [obind app]. rewrite Hpad, <- pairNodes_hashes in Hnext.
      rewrite quot_2_of_nat.
      change (Nat.div2 (Nat.shiftr i d)) with (Nat.shiftr i (S d)) in *.
      pose proof (div2_succ_lt Long) as Hhalf.
      assert (length (pairNodes h (padNodes nodes)) <= fuel) as Hl'
        by (rewrite nextNodes_length; lia).
      assert (Forall (perfect h (S d)) (pairNodes h (padNodes nodes))) as F'
        by (apply pairNodes_perfect, padNodes_perfect, F).
      destruct (IH _ nextLevel (S d) i _ (proof ++ [Hash sibL]) Hl' Hnext F' Eparent)
        as (r & siblings & Eb & Ep & P & Hn & Hs).
      rewrite nextNodes_length, Nat.add_succ_l in P, Hn, Hs.
      rewrite (log2_up_half Long), Nat.add_succ_r.
      exists r, (Hash sibL :: siblings). repeat split; auto.
      * rewrite Ep, <- app_assoc. reflexivity.
      * rewrite Hn. apply nodeAt_parent.
      * rewrite Hs, pathSiblings_parent, <- app_assoc, Hsib. reflexivity.
Qed.

Lemma leafNodes_perfect (h : HashFn) (ls : list ByteSlice) :
  Forall (perfect h 0) (map (leafNode h) ls).
Proof.
  apply Forall_forall. intros n Hn. apply in_map_iff in Hn as (d & <- & _).
  constructor.
Qed.

Lemma stored_root_is_built (t : DefaultMerkleTree) (r : MerkleNode) :
  reachable t ->
  buildLoop (length (leaves t)) (hashFn t) (map (leafNode (hashFn t)) (leaves t)) = Done [r] ->
  root t = Some r.
Proof.
  intros R Eb. apply reachable_consistent in R.
  destruct t as [h ls r0]. simpl in *. revert R. run_method.
  rewrite leafNodes_map. cbn [app]. rewrite length_map, Eb.
  destruct (Nat.eqb_spec (length ls) 0) as [E0 | N0].
  - apply length_zero_iff_nil in E0. subst ls. discriminate.
  - simpl. intros [= <-]. reflexivity.
Qed.

(** The stored tree, the position of a leaf in it and the proof of that
    leaf, in one statement. *)
Lemma stored_tree_path (t : DefaultMerkleTree) (i : nat) (L : ByteSlice) :
  reachable t ->
  nth_error (leaves t) i = Some L ->
  exists r siblings,
    root t = Some r /\
    perfect (hashFn t) (Nat.log2_up (length (leaves t))) r /\
    nodeAt (Nat.log2_up (length (leaves t))) r i = Some (leafNode (hashFn t) L) /\
    GenerateProof (Z.of_nat i) t = Done ((siblings, None), t) /\
    pathSiblings (Nat.log2_up (length (leaves t))) r i = siblings.
Proof.
  intros R E.
  assert (i < length (leaves t)) as Hi by (apply nth_error_Some; congruence).
  set (h := hashFn t). set (nodes := map (leafNode h) (leaves t)).
  destruct (@build_proof_lockstep h (length (leaves t)) nodes nodes 0 i
              (leafNode h L) [])
    as (r & siblings & Eb & Ep & P & Hn & Hs).
  - unfold nodes. now rewrite length_map.
  - reflexivity.
  - apply leafNodes_perfect.
  - unfold nodes. simpl Nat.shiftr. now rewrite nth_error_map, E.
  - unfold nodes in P, Hn, Hs, Ep. rewrite length_map in *. simpl in P, Hn, Hs, Ep.
    exists r, siblings. repeat split; auto.
    + now apply stored_root_is_built.
    + clear R Eb. subst h nodes. destruct t as [h ls r0]. simpl in *. run_method.
      destruct (Z.ltb_spec (Z.of_nat i) 0); [lia|].
      destruct (Z.leb_spec (Z.of_nat (length ls)) (Z.of_nat i)); [lia|].
      simpl orb. cbv iota. rewrite leafNodes_map. cbn [app]. now rewrite Ep.
Qed.

(** ** Sequences of calls *)

Lemma call_spec (c : Call) (t : DefaultMerkleTree) :
  exists t',
    call c t = Done (tt, t') /\
    hashFn t' = hashFn t /\
    leaves t' = leaves t ++ addedLeaves [c].
Proof.
  destruct (queries_return_same_engine t) as ((r & Er) & Hg & Hv).
  destruct c as [data | | index | leaf index proof rt];
    unfold call, bind, ret; cbn [addedLeaves].
  - destruct (AddLeaf_spec t data) as (t' & E & Eh & El & _).
    exists t'. now rewrite E.
  - exists t. now rewrite Er, app_nil_r.
  - destruct (Hg index) as (res & E). exists t. now rewrite E, app_nil_r.
  - destruct (Hv leaf index proof rt) as (b & E). exists t. now rewrite E, app_nil_r.
Qed.

Lemma calls_spec (cs : list Call) :
  forall t, exists t',
    calls cs t = Done (tt, t') /\
    hashFn t' = hashFn t /\
    leaves t' = leaves t ++ addedLeaves cs.
Proof.
  induction cs as [|c cs IH]; intros t.
  - exists t. simpl. now rewrite app_nil_r.
  - destruct (call_spec c t) as (t1 & E1 & Eh1 & El1).
    destruct (IH t1) as (t' & E & Eh & El).
    exists t'. simpl calls. unfold bind. rewrite E1. repeat split; auto.
    + congruence.
    + rewrite El, El1, <- app_assoc. f_equal.
      destruct c; simpl; auto.
Qed.

(** ** The index of [VerifyProof] *)

Lemma verifyLoop_opp (h : HashFn) (proof : list ByteSlice) :
  forall hash index,
    verifyLoop h hash (- index) proof = verifyLoop h hash index proof.
Proof.
  induction proof as [|sibling rest IH]; intros hash index; simpl; auto.
  rewrite Z.rem_opp_l, Z.quot_opp_l by lia.
  replace (- Z.rem index 2 =? 0)%Z with (Z.rem index 2 =? 0)%Z.
  - apply IH.
  - destruct (Z.eqb_spec (Z.rem index 2) 0), (Z.eqb_spec (- Z.rem index 2) 0); auto; lia.
Qed.

Lemma verifyLoop_period (h : HashFn) (proof : list ByteSlice) :
  forall hash index k,
    (0 <= index)%Z -> (0 <= k)%Z ->
    verifyLoop h hash (index + k * 2 ^ Z.of_nat (length proof)) proof =
    verifyLoop h hash index proof.
Proof.
  induction proof as [|sibling rest IH]; intros hash index k Hi Hk.
  - reflexivity.
  - cbn [verifyLoop length]. rewrite Nat2Z.inj_succ, Z.pow_succ_r by lia.
    assert (0 <= 2 ^ Z.of_nat (length rest))%Z as Hp by (apply Z.pow_nonneg; lia).
    replace (index + k * (2 * 2 ^ Z.of_nat (length rest)))%Z
      with (index + (k * 2 ^ Z.of_nat (length rest)) * 2)%Z by ring.
    rewrite Z.rem_mod_nonneg, Z.quot_div_nonneg by nia.
    rewrite Z.mod_add, Z.div_add by lia.
    rewrite <- Z.rem_mod_nonneg, <- Z.quot_div_nonneg by lia.
    apply IH; auto. apply Z.quot_pos; lia.
Qed.

Lemma bytes_of_append (a b : ByteSlice) :
  bytes_of (append a b) = bytes_of a ++ bytes_of b.
Proof.
  unfold append. destruct (bytes_of b) eqn:E; simpl.
  - now rewrite app_nil_r.
  - reflexivity.
Qed.

Lemma verifyLoop_binding (h : HashFn) (proof : list ByteSlice) :
  collision_free h ->
  forall hash hash' index,
    bytes_of (verifyLoop h hash index proof) = bytes_of (verifyLoop h hash' index proof) ->
    bytes_of hash = bytes_of hash'.
Proof.
  intros Hfree. induction proof as [|sibling rest IH]; intros hash hash' index E.
  - exact E.
  - simpl in E. apply IH, Hfree in E.
    destruct (Z.rem index 2 =? 0)%Z; rewrite !bytes_of_append in E.
    + now apply app_inv_tail in E.
    + now apply app_inv_head in E.
Qed.

Lemma tagHash_collision_free : collision_free tagHash.
Proof. intros x y E. unfold tagHash in E. simpl in E. now injection E. Qed.

(** ** The root as a function of the leaves *)

Lemma rootHashes_fuel (h : HashFn) (f1 : nat) :
  forall f2 hs,
    length hs <= f1 -> length hs <= f2 ->
    rootHashes f1 h hs = rootHashes f2 h hs.
Proof.
  induction f1 as [|f1 IH]; intros f2 hs H1 H2.
  - rewrite !rootHashes_short by lia. reflexivity.
  - destruct (Nat.le_gt_cases (length hs) 1) as [Short | Long].
    + rewrite !rootHashes_short by lia. reflexivity.
    + destruct f2 as [|f2]; [lia|].
      rewrite !rootHashes_step by lia.
      pose proof (div2_succ_lt Long).
      apply IH; rewrite nextHashes_length; lia.
Qed.

Lemma padHashes_even_id (hs : list ByteSlice) :
  Nat.even (length hs) = true -> padHashes hs = hs.
Proof. intros Ev. unfold padHashes. now rewrite Ev. Qed.

Lemma padHashes_odd_snoc (front : list ByteSlice) (x : ByteSlice) :
  Nat.even (length front) = true ->
  padHashes (front ++ [x]) = front ++ [x; x] /\
  padHashes ((front ++ [x]) ++ [x]) = front ++ [x; x].
Proof.
  intros Ev. unfold padHashes. rewrite !length_app. simpl length.
  rewrite !Nat.add_1_r, Nat.even_succ_succ, Nat.even_succ, <- Nat.negb_even, Ev.
  simpl. rewrite last_last, <- !app_assoc. now split.
Qed.

(** Appending a copy of the last leaf to an odd number (at least three) of
    leaves gives the same root. *)
Lemma rootOf_duplicate_last (h : HashFn) (front : list ByteSlice) (x : ByteSlice) :
  Nat.even (length front) = true ->
  2 <= length front ->
  rootOf h ((front ++ [x]) ++ [x]) = rootOf h (front ++ [x]).
Proof.
  intros Ev Long. unfold rootOf.
  assert (length (front ++ [x]) = S (length front)) as ->
    by (rewrite length_app; simpl; lia).
  assert (length ((front ++ [x]) ++ [x]) = S (S (length front))) as ->
    by (rewrite !length_app; simpl; lia).
  rewrite !map_app. cbn [map].
  destruct (padHashes_odd_snoc (map h front) (h x)) as [E1 E2].
  { now rewrite length_map. }
  rewrite (@rootHashes_step (S (length front)) h ((map h front ++ [h x]) ++ [h x]))
    by (rewrite !length_app, length_map; simpl; lia).
  rewrite (@rootHashes_step (length front) h (map h front ++ [h x]))
    by (rewrite !length_app, length_map; simpl; lia).
  unfold nextHashes. rewrite E1, E2.
  assert (length (pairHashes h (map h front ++ [h x; h x])) <= length front) as Hp.
  { rewrite pairHashes_length, length_app, length_map. simpl length.
    rewrite Nat.add_comm. simpl.
    pose proof (Nat.div2_odd (length front)) as Hd.
    destruct (Nat.odd (length front)); simpl Nat.b2n in Hd; lia. }
  now rewrite (@rootHashes_fuel h (S (length front)) (length front)) by lia.
Qed.

Lemma pairHashes_app (h : HashFn) (a b : list ByteSlice) :
  Nat.even (length a) = true ->
  pairHashes h (a ++ b) = pairHashes h a ++ pairHashes h b.
Proof.
  induction a as [| x | x y l IH] using pair_ind; intros Ev.
  - reflexivity.
  - discriminate.
  - simpl. now rewrite (IH Ev).
Qed.

Lemma nextHashes_app (h : HashFn) (a b : list ByteSlice) :
  Nat.even (length a) = true -> Nat.even (length b) = true ->
  nextHashes h (a ++ b) = nextHashes h a ++ nextHashes h b.
Proof.
  intros Ea Eb. unfold nextHashes.
  rewrite !padHashes_even_id; auto.
  - now apply pairHashes_app.
  - rewrite length_app, Nat.even_add, Ea, Eb. reflexivity.
Qed.

(** The root over two halves of [2^k] leaves each is the hash of the two
    half roots. *)
Lemma rootHashes_halves (h : HashFn) (k : nat) :
  forall hs1 hs2 f1 f2 f,
    length hs1 = 2 ^ k -> length hs2 = 2 ^ k ->
    2 ^ k <= f1 -> 2 ^ k <= f2 -> 2 * 2 ^ k <= f ->
    exists r1 r2,
      rootHashes f1 h hs1 = [r1] /\
      rootHashes f2 h hs2 = [r2] /\
      rootHashes f h (hs1 ++ hs2) = [h (append r1 r2)].
Proof.
  induction k as [|k IH]; intros hs1 hs2 f1 f2 f L1 L2 F1 F2 F.
  - destruct hs1 as [|a [|? ?]]; try discriminate.
    destruct hs2 as [|b [|? ?]]; try discriminate.
    exists a, b. rewrite !rootHashes_short by (simpl; lia).
    destruct f as [|f]; [simpl in F; lia|].
    rewrite rootHashes_step by (simpl; lia).
    repeat split. apply rootHashes_short. simpl. lia.
  - rewrite Nat.pow_succ_r' in *.
    assert (1 <= 2 ^ k) as Hpos.
    { pose proof (Nat.pow_nonzero 2 k). lia. }
    assert (forall hs, length hs = 2 * 2 ^ k ->
              Nat.even (length hs) = true /\ length (nextHashes h hs) = 2 ^ k) as Half.
    { intros hs Hlen. split.
      - now rewrite Hlen, Nat.even_mul.
      - now rewrite nextHashes_length, Hlen, Nat.div2_succ_double. }
    destruct (Half hs1 L1) as [Ev1 N1]. destruct (Half hs2 L2) as [Ev2 N2].
    destruct f1 as [|f1]; [lia|]. destruct f2 as [|f2]; [lia|].
    destruct f as [|f]; [lia|].
    rewrite (rootHashes_step f1), (rootHashes_step f2), (rootHashes_step f)
      by (rewrite ?length_app; lia).
    rewrite nextHashes_app by assumption.
    apply IH; auto; lia.
Qed.

(** ** The first sibling of a proof *)

Lemma padHashes_sibling (hs : list ByteSlice) (i : nat) (cur sib : ByteSlice) :
  nth_error hs i = Some cur ->
  nth_error (padHashes hs) (siblingOf i) = Some sib ->
  sib = nth (siblingOf i) hs cur.
Proof.
  intros E Es.
  assert (i < length hs) as Hi by (apply nth_error_Some; congruence).
  destruct (Nat.lt_ge_cases (siblingOf i) (length hs)) as [In | Out].
  - erewrite nth_error_nth; [reflexivity|].
    unfold padHashes in Es. destruct (Nat.even (length hs)); auto.
    now rewrite nth_error_app1 in Es.
  - rewrite nth_overflow by assumption.
    unfold padHashes in Es. destruct (Nat.even (length hs)).
    + assert (nth_error hs (siblingOf i) <> None) as Hsome by congruence.
      apply nth_error_Some in Hsome. lia.
    + assert (siblingOf i = length hs /\ i = length hs - 1) as [Es1 Ei].
      { unfold siblingOf in *. destruct (Nat.even i); lia. }
      destruct (exists_last (l := hs)) as (front & x & ->).
      { intros ->. simpl in Hi. lia. }
      rewrite last_last in Es. rewrite Es1, nth_error_app2 in Es by lia.
      rewrite Nat.sub_diag in Es. simpl in Es.
      rewrite Ei, length_app in E. simpl in E.
      rewrite nth_error_app2 in E by lia.
      replace (length front + 1 - 1 - length front) with 0 in E by lia.
      simpl in E. congruence.
Qed.

Lemma proofLoop_first (h : HashFn) (fuel : nat) (level : list MerkleNode)
    (i : nat) (cur : ByteSlice) :
  2 <= length level <= S fuel ->
  nth_error (map Hash level) i = Some cur ->
  exists rest,
    proofLoop (S fuel) h (length level) level (Z.of_nat i) [] =
    Done (nth (siblingOf i) (map Hash level) cur :: rest).
Proof.
  intros [Long Hl] E. simpl proofLoop.
  destruct (Nat.leb_spec (length level) 1); [lia|].
  destruct (dupLast_hashes level) as (level1 & -> & Hpad). cbn [obind].
  destruct (nextHashes_nth h _ _ E) as (sib & Esib & Enext).
  pose proof (padHashes_sibling _ _ E Esib) as Hsib.
  rewrite <- Hpad, nth_error_map in Esib.
  destruct (nth_error level1 (siblingOf i)) as [sibling|] eqn:Esibling; [|discriminate].
  simpl in Esib. injection Esib as Esib.
  rewrite lxor_1_of_nat, (index_at_of_nat _ _ Esibling). cbn [obind].
  assert (Nat.even (length level1) = true) as Ev.
  { rewrite <- (length_map Hash), Hpad. apply padHashes_even. }
  destruct (hashPairs_hashes h level1 Ev []) as (nextLevel & -> & Hnext).
  cbn [obind app]. rewrite Hpad in Hnext. fold (nextHashes h (map Hash level)) in Hnext.
  rewrite <- Hnext in Enext. rewrite quot_2_of_nat.
  assert (length nextLevel <= fuel) as Hl'.
  { rewrite <- (length_map Hash), Hnext, nextHashes_length, length_map.
    pose proof (div2_succ_lt Long). lia. }
  destruct (proofLoop_verify h nextLevel (Nat.div2 i) [Hash sibling] Hl' Enext)
    as (rest & Eloop & _).
  exists rest. rewrite Eloop, Esib, Hsib. reflexivity.
Qed.

Lemma log2_up_pow2_ge (n : nat) : 1 <= n -> n <= 2 ^ Nat.log2_up n.
Proof.
  intros Hn. destruct (Nat.eq_dec n 1) as [-> | N1]; [simpl; lia|].
  apply (Nat.log2_up_spec n). lia.
Qed.

(** * Further theorems *)


(** X2 (shape of the stored tree).  With [n >= 1] leaves, the tree stored
    by [buildTree] is a perfect binary tree of depth [ceil(log2 n)]: its
    leaves have no children, and every inner node has both children and
    carries the hash of its children's hashes, left before right. *)
Theorem stored_tree_is_perfect (t : DefaultMerkleTree) :
  reachable t ->
  leaves t <> [] ->
  exists r,
    root t = Some r /\
    perfect (hashFn t) (Nat.log2_up (length (leaves t))) r.
Proof.
  intros R Hne. destruct (leaves t) as [|L ls] eqn:El; [congruence|].
  destruct (@stored_tree_path t 0 L R) as (r & _ & Er & P & _).
  { now rewrite El. }
  rewrite El in P. eauto.
Qed.

Lemma stored_tree_is_perfect_witness :
  reachable abc_tree /\
  leaves abc_tree <> [] /\
  exists r,
    root abc_tree = Some r /\
    perfect (hashFn abc_tree) (Nat.log2_up (length (leaves abc_tree))) r.
Proof.
  assert (reachable abc_tree) as R by apply tree_of_reachable.
  assert (leaves abc_tree <> []) as Hne by discriminate.
  split; [exact R | split; [exact Hne | exact (stored_tree_is_perfect R Hne)]].
Defined.

(** X3 (position of a leaf).  In the stored tree, going down from the root
    by the bits of [i], highest first (right on 1, left on 0), leads to the
    childless node that carries the hash of the [i]-th leaf. *)
Theorem stored_tree_leaf_position (t : DefaultMerkleTree) (i : nat) (L : ByteSlice) :
  reachable t ->
  nth_error (leaves t) i = Some L ->
  exists r,
    root t = Some r /\
    nodeAt (Nat.log2_up (length (leaves t))) r i = Some (mkNode None None (hashFn t L)).
Proof.
  intros R E.
  destruct (@stored_tree_path t i L R E) as (r & _ & Er & _ & Hn & _). eauto.
Qed.

Lemma stored_tree_leaf_position_witness :
  reachable abc_tree /\
  nth_error (leaves abc_tree) 2 = Some leaf_c /\
  exists r,
    root abc_tree = Some r /\
    nodeAt (Nat.log2_up (length (leaves abc_tree))) r 2
    = Some (mkNode None None (hashFn abc_tree leaf_c)).
Proof.
  assert (reachable abc_tree) as R by apply tree_of_reachable.
  assert (nth_error (leaves abc_tree) 2 = Some leaf_c) as E by reflexivity.
  split; [exact R | split; [exact E | exact (@stored_tree_leaf_position abc_tree 2 leaf_c R E)]].
Defined.

(** X4 (the proof is a path of the stored tree).  For a valid index [i]
    the proof that [GenerateProof] recomputes from the leaves is the list
    of the hashes of the nodes left aside on the way from the root of the
    stored tree down to leaf [i], the lowest first. *)
Theorem proof_is_path_in_stored_tree (t : DefaultMerkleTree) (i : nat) (L : ByteSlice) :
  reachable t ->
  nth_error (leaves t) i = Some L ->
  exists r proof,
    root t = Some r /\
    GenerateProof (Z.of_nat i) t = Done ((proof, None), t) /\
    proof = pathSiblings (Nat.log2_up (length (leaves t))) r i.
Proof.
  intros R E.
  destruct (@stored_tree_path t i L R E) as (r & proof & Er & _ & _ & Eg & Hs).
  exists r, proof. auto.
Qed.

Lemma proof_is_path_in_stored_tree_witness :
  reachable abc_tree /\
  nth_error (leaves abc_tree) 2 = Some leaf_c /\
  exists r proof,
    root abc_tree = Some r /\
    GenerateProof (Z.of_nat 2) abc_tree = Done ((proof, None), abc_tree) /\
    proof = pathSiblings (Nat.log2_up (length (leaves abc_tree))) r 2.
Proof.
  assert (reachable abc_tree) as R by apply tree_of_reachable.
  assert (nth_error (leaves abc_tree) 2 = Some leaf_c) as E by reflexivity.
  split; [exact R | split; [exact E | exact (@proof_is_path_in_stored_tree abc_tree 2 leaf_c R E)]].
Defined.

(** X5 (first sibling).  With at least two leaves, the proof for a valid
    index [i] starts with the hash of the leaf at [i ^ 1]; when that
    position is past the end ([i] is the last leaf of an odd number of
    leaves) it starts with the hash of leaf [i] itself. *)
Theorem proof_starts_with_sibling_leaf_hash
    (t : DefaultMerkleTree) (i : nat) (L : ByteSlice) :
  nth_error (leaves t) i = Some L ->
  2 <= length (leaves t) ->
  exists rest,
    GenerateProof (Z.of_nat i) t
    = Done ((hashFn t (nth (siblingOf i) (leaves t) L) :: rest, None), t).
Proof.
  intros E Long.
  assert (i < length (leaves t)) as Hi by (apply nth_error_Some; congruence).
  destruct t as [h ls r0]. simpl in *.
  destruct (length ls) as [|fuel] eqn:Elen; [lia|].
  destruct (@proofLoop_first h fuel (leafNodes h ls []) i (h L)) as (rest & Ep).
  - rewrite leafNodes_length. lia.
  - rewrite leafNodes_hashes. simpl app. now rewrite nth_error_map, E.
  - exists rest. run_method.
    destruct (Z.ltb_spec (Z.of_nat i) 0); [lia|].
    destruct (Z.leb_spec (Z.of_nat (length ls)) (Z.of_nat i)); [lia|].
    simpl orb. cbv iota.
    rewrite leafNodes_length, leafNodes_hashes in Ep. cbn [map app] in Ep.
    rewrite Elen in *. rewrite Ep. now rewrite (map_nth h).
Qed.

Lemma proof_starts_with_sibling_leaf_hash_witness :
  nth_error (leaves abc_tree) 2 = Some leaf_c /\
  2 <= length (leaves abc_tree) /\
  exists rest,
    GenerateProof (Z.of_nat 2) abc_tree
    = Done ((hashFn abc_tree (nth (siblingOf 2) (leaves abc_tree) leaf_c) :: rest, None),
            abc_tree).
Proof.
  assert (nth_error (leaves abc_tree) 2 = Some leaf_c) as E by reflexivity.
  assert (2 <= length (leaves abc_tree)) as Long by (vm_compute; repeat constructor).
  split; [exact E | split; [exact Long |]].
  exact (@proof_starts_with_sibling_leaf_hash abc_tree 2 leaf_c E Long).
Defined.

(** X6 (sign of the index).  [VerifyProof] gives the same answer for an
    index and for its negation: Go's [%] and [/] on [-index] take the same
    branches as on [index]. *)
Theorem verifyProof_index_sign
    (t : DefaultMerkleTree) (leaf : ByteSlice) (index : Z)
    (proof : list ByteSlice) (rt : ByteSlice) :
  VerifyProof leaf (- index) proof rt t = VerifyProof leaf index proof rt t.
Proof. rewrite !VerifyProof_spec. now rewrite verifyLoop_opp. Qed.

(** X7 (index modulo the proof length).  [VerifyProof] reads only the
    lowest [len(proof)] bits of a non-negative index: adding a multiple of
    [2^len(proof)] to it does not change the answer. *)
Theorem verifyProof_index_period
    (t : DefaultMerkleTree) (leaf : ByteSlice) (index k : Z)
    (proof : list ByteSlice) (rt : ByteSlice) :
  (0 <= index)%Z -> (0 <= k)%Z ->
  VerifyProof leaf (index + k * 2 ^ Z.of_nat (length proof)) proof rt t
  = VerifyProof leaf index proof rt t.
Proof. intros Hi Hk. rewrite !VerifyProof_spec. now rewrite verifyLoop_period. Qed.

Lemma verifyProof_index_period_witness :
  (0 <= 1)%Z /\ (0 <= 3)%Z /\
  VerifyProof leaf_b (1 + 3 * 2 ^ Z.of_nat (length [leaf_a; leaf_c])) [leaf_a; leaf_c] None abc_tree
  = VerifyProof leaf_b 1 [leaf_a; leaf_c] None abc_tree.
Proof.
  assert (0 <= 1)%Z as H1 by lia. assert (0 <= 3)%Z as H3 by lia.
  split; [exact H1 | split; [exact H3 |]].
  exact (@verifyProof_index_period abc_tree leaf_b 1 3 [leaf_a; leaf_c] None H1 H3).
Defined.

(** X8 (an out-of-range index is accepted).  For a valid index [i] with
    leaf [L], the generated proof also verifies [L] against the root at the
    index [i + 2^len(proof)], which is not the index of any leaf. *)
Theorem out_of_range_index_verifies (t : DefaultMerkleTree) (i : nat) (L : ByteSlice) :
  reachable t ->
  nth_error (leaves t) i = Some L ->
  exists proof r,
    GenerateProof (Z.of_nat i) t = Done ((proof, None), t) /\
    Root t = Done (r, t) /\
    (Z.of_nat (length (leaves t)) <= Z.of_nat i + 2 ^ Z.of_nat (length proof))%Z /\
    VerifyProof L (Z.of_nat i + 2 ^ Z.of_nat (length proof)) proof r t = Done (true, t).
Proof.
  intros R E.
  destruct (GenerateProof_in_range t _ E) as (proof & Eg & Hsize & Ev).
  exists proof, (rootOf (hashFn t) (leaves t)). repeat split; auto.
  - now apply Root_spec.
  - assert (1 <= length (leaves t)) as Hn.
    { assert (i < length (leaves t)) by (apply nth_error_Some; congruence). lia. }
    pose proof (log2_up_pow2_ge Hn) as Hp. rewrite <- Hsize in Hp.
    apply inj_le in Hp. rewrite Nat2Z.inj_pow in Hp. simpl Z.of_nat in Hp. lia.
  - rewrite VerifyProof_spec.
    replace (Z.of_nat i + 2 ^ Z.of_nat (length proof))%Z
      with (Z.of_nat i + 1 * 2 ^ Z.of_nat (length proof))%Z by lia.
    rewrite verifyLoop_period, Ev by lia. now rewrite string_eqb_refl.
Qed.

Lemma out_of_range_index_verifies_witness :
  reachable abc_tree /\
  nth_error (leaves abc_tree) 2 = Some leaf_c /\
  exists proof r,
    GenerateProof (Z.of_nat 2) abc_tree = Done ((proof, None), abc_tree) /\
    Root abc_tree = Done (r, abc_tree) /\
    (Z.of_nat (length (leaves abc_tree)) <= Z.of_nat 2 + 2 ^ Z.of_nat (length proof))%Z /\
    VerifyProof leaf_c (Z.of_nat 2 + 2 ^ Z.of_nat (length proof)) proof r abc_tree
    = Done (true, abc_tree).
Proof.
  assert (reachable abc_tree) as R by apply tree_of_reachable.
  assert (nth_error (leaves abc_tree) 2 = Some leaf_c) as E by reflexivity.
  split; [exact R | split; [exact E |]].
  exact (@out_of_range_index_verifies abc_tree 2 leaf_c R E).
Defined.



(** X10 (duplicate of the last leaf).  When an engine holds an odd number,
    at least three, of leaves, adding a copy of the last leaf leaves
    [Root()] as it was: two different leaf lists with one root. *)
Theorem add_copy_of_last_leaf_keeps_root
    (t : DefaultMerkleTree) (front : list ByteSlice) (x : ByteSlice) :
  reachable t ->
  leaves t = front ++ [x] ->
  Nat.even (length front) = true ->
  2 <= length front ->
  exists t' r,
    AddLeaf x t = Done (None, t') /\
    leaves t' = front ++ [x; x] /\
    Root t = Done (r, t) /\
    Root t' = Done (r, t').
Proof.
  intros R El Ev Long.
  destruct (AddLeaf_spec t x) as (t' & E & Eh & El' & _).
  assert (reachable t') as R'.
  { apply (reachable_call (CallAddLeaf x) R). unfold call, bind, ret. now rewrite E. }
  exists t', (rootOf (hashFn t) (leaves t)). repeat split; auto.
  - rewrite El', El, <- app_assoc. reflexivity.
  - now apply Root_spec.
  - rewrite (Root_spec R'), Eh, El', El. now rewrite rootOf_duplicate_last.
Qed.

Lemma add_copy_of_last_leaf_keeps_root_witness :
  reachable abc_tree /\
  leaves abc_tree = [leaf_a; leaf_b] ++ [leaf_c] /\
  Nat.even (length [leaf_a; leaf_b]) = true /\
  2 <= length [leaf_a; leaf_b] /\
  exists t' r,
    AddLeaf leaf_c abc_tree = Done (None, t') /\
    leaves t' = [leaf_a; leaf_b] ++ [leaf_c; leaf_c] /\
    Root abc_tree = Done (r, abc_tree) /\
    Root t' = Done (r, t').
Proof.
  assert (reachable abc_tree) as R by apply tree_of_reachable.
  assert (leaves abc_tree = [leaf_a; leaf_b] ++ [leaf_c]) as El by reflexivity.
  assert (Nat.even (length [leaf_a; leaf_b]) = true) as Ev by reflexivity.
  assert (2 <= length [leaf_a; leaf_b]) as Long by (simpl; lia).
  split; [exact R | split; [exact El | split; [exact Ev | split; [exact Long |]]]].
  exact (@add_copy_of_last_leaf_keeps_root abc_tree [leaf_a; leaf_b] leaf_c R El Ev Long).
Defined.

(** X11 (two halves).  When the leaves of an engine are those of a first
    engine followed by those of a second one, [2^k] leaves each, under one
    hash function, its root is the hash of the two roots, first before
    second. *)
Theorem root_of_two_halves (t1 t2 t : DefaultMerkleTree) (k : nat) :
  reachable t1 -> reachable t2 -> reachable t ->
  hashFn t1 = hashFn t -> hashFn t2 = hashFn t ->
  length (leaves t1) = 2 ^ k -> length (leaves t2) = 2 ^ k ->
  leaves t = leaves t1 ++ leaves t2 ->
  exists r1 r2,
    Root t1 = Done (r1, t1) /\
    Root t2 = Done (r2, t2) /\
    Root t = Done (hashFn t (append r1 r2), t).
Proof.
  intros R1 R2 R Eh1 Eh2 L1 L2 El.
  rewrite (Root_spec R1), (Root_spec R2), (Root_spec R).
  rewrite Eh1, Eh2, El. unfold rootOf. rewrite map_app, length_app.
  destruct (@rootHashes_halves (hashFn t) k
              (map (hashFn t) (leaves t1)) (map (hashFn t) (leaves t2))
              (length (leaves t1)) (length (leaves t2))
              (length (leaves t1) + length (leaves t2)))
    as (r1 & r2 & E1 & E2 & E12);
    rewrite ?length_map; try lia.
  rewrite E1, E2, E12. eauto.
Qed.

Lemma root_of_two_halves_witness :
  exists r1 r2,
    Root (tree_of tagHash [leaf_a; leaf_b]) = Done (r1, tree_of tagHash [leaf_a; leaf_b]) /\
    Root (tree_of tagHash [leaf_c; leaf_a]) = Done (r2, tree_of tagHash [leaf_c; leaf_a]) /\
    Root (tree_of tagHash [leaf_a; leaf_b; leaf_c; leaf_a])
    = Done (tagHash (append r1 r2), tree_of tagHash [leaf_a; leaf_b; leaf_c; leaf_a]).
Proof.
  exact (@root_of_two_halves
           (tree_of tagHash [leaf_a; leaf_b]) (tree_of tagHash [leaf_c; leaf_a])
           (tree_of tagHash [leaf_a; leaf_b; leaf_c; leaf_a]) 1
           (tree_of_reachable _ _) (tree_of_reachable _ _) (tree_of_reachable _ _)
           eq_refl eq_refl eq_refl eq_refl eq_refl).
Defined.

Lemma printProof_length (proof : list ByteSlice) :
  forall i, length (printProof i proof) = length proof.
Proof. induction proof as [|p rest IH]; intros i; simpl; auto. Qed.


Lemma app_split_by_length (A : Type) (a a' b b' : list A) :
  length a = length a' -> a ++ b = a' ++ b' -> a = a' /\ b = b'.
Proof.
  revert a'. induction a as [|x a IH]; intros [|x' a'] Hl E; simpl in *;
    try discriminate; auto.
  injection E as -> E. injection Hl as Hl.
  destruct (IH a' Hl E) as [-> ->]. auto.
Qed.

Lemma verifyLoop_binds_proof (h : HashFn) :
  collision_free h -> length_regular h ->
  forall proof proof' hash hash' index,
    Forall2 same_length proof proof' ->
    same_length hash hash' ->
    bytes_of (verifyLoop h hash index proof) = bytes_of (verifyLoop h hash' index proof') ->
    same_bytes hash hash' /\ Forall2 same_bytes proof proof'.
Proof.
  intros Hfree Hreg proof proof' hash hash' index F. revert hash hash' index.
  induction F as [|s s' rest rest' Hs F IH]; intros hash hash' index Hh E.
  - split; [exact E | constructor].
  - simpl in E. unfold same_length in *.
    destruct (Z.rem index 2 =? 0)%Z.
    + apply IH in E as [Ec Er].
      * apply Hfree in Ec. rewrite !bytes_of_append in Ec.
        apply app_split_by_length in Ec as [Ec Es]; [| exact Hh].
        split; [exact Ec | constructor; assumption].
      * apply Hreg. rewrite !bytes_of_append, !length_app. congruence.
    + apply IH in E as [Ec Er].
      * apply Hfree in Ec. rewrite !bytes_of_append in Ec.
        apply app_split_by_length in Ec as [Es Ec]; [| exact Hs].
        split; [exact Ec | constructor; assumption].
      * apply Hreg. rewrite !bytes_of_append, !length_app. congruence.
Qed.

Lemma tagHash_length_regular : length_regular tagHash.
Proof. intros x y E. unfold tagHash. simpl. now rewrite E. Qed.




